(** * Stackless coroutines (coroutine.h, coroutine.hpp)

    The header implements coroutines with macros that expand to nested
    [for], [if], [switch], [case], [goto], [break] and [continue].  The
    development embeds

    - the context [co_ctx_t] and the expression macros on it,
    - a small C statement language with exactly the control constructs the
      macros expand to, with a continuation-based step function in which a
      [switch] may jump to a [case] nested in loops and conditionals,
    - the statement macros [co_reenter__], [co_yield__] and [co_fork__] as
      functions that build the statement the preprocessor builds,
    - the C++ class [Coroutine].

    A region body is a sequence of ordinary statements, [co_yield] statements
    and [co_fork] statements.  Ordinary statements and the expressions that
    follow [co_yield] and [co_fork] are opaque actions: running one appends
    to a log the action together with a copy of the context as it is at that
    moment, and does not write the context.

    The properties are stated on the runs of the machine over the expanded
    macros.  [run_items] and [invoke] describe one invocation item by item;
    they are proved to agree with the machine ([invoke_sound],
    [exits_iff_invoke]) and serve in the proofs. *)

From Stdlib Require Import ZArith List String Bool Lia.
Import ListNotations.
Local Open Scope string_scope.
Local Open Scope list_scope.
Local Open Scope Z_scope.

(** ** The context *)

(** [typedef struct { CO_LABEL_TYPE label; } co_ctx_t;] with the default
    [CO_LABEL_TYPE], [int].  Labels come from [__COUNTER__ + 1] or
    [__LINE__], so they are positive values of type [int]; for such a label
    [-(label)-1] is at least [INT_MIN], hence no operation of the header
    overflows and [Z] needs no wrap-around here (see [stored_labels_in_range]). *)
Record co_ctx_t : Set := { label : Z }.

Definition INT_MAX : Z := 2147483647.
Definition INT_MIN : Z := -2147483648.

(** [#define CO_CTX_INIT { 0 }] *)
Definition CO_CTX_INIT : co_ctx_t := {| label := 0 |}.

(** [#define co_restart__(ctx) ((void)((ctx)->label = 0))] *)
Definition co_restart__ (ctx : co_ctx_t) : co_ctx_t := {| label := 0 |}.
Definition co_restart (ctx : co_ctx_t) : co_ctx_t := co_restart__ ctx.

(** [#define co_is_ready__(ctx) ((ctx)->label == -1)] *)
Definition co_is_ready__ (ctx : co_ctx_t) : bool := label ctx =? -1.
Definition co_is_ready (ctx : co_ctx_t) : bool := co_is_ready__ ctx.

(** [#define co_is_child() ( *_co_label_ < -1)], where [_co_label_] points to
    the label of the context of the enclosing [co_reenter]. *)
Definition co_is_child (ctx : co_ctx_t) : bool := label ctx <? -1.

(** [#define co_is_parent() (!co_is_child())] *)
Definition co_is_parent (ctx : co_ctx_t) : bool := negb (co_is_child ctx).

(** ** The C++ wrapper *)

Module Cpp.

(** [class Coroutine { ... private: co_ctx_t ctx_ CO_CTX_INIT; ... };] *)
Record Coroutine : Set := { ctx_ : co_ctx_t }.

(** The default constructor runs the member initializer [CO_CTX_INIT]. *)
Definition Coroutine_new : Coroutine := {| ctx_ := CO_CTX_INIT |}.

(** [friend co_ctx_t* to_co_ctx(Coroutine* coro) { return &coro->ctx_; }]
    The pointer is modelled by a getter and a setter on the field. *)
Definition to_co_ctx (coro : Coroutine) : co_ctx_t := ctx_ coro.
Definition to_co_ctx_store (coro : Coroutine) (c : co_ctx_t) : Coroutine :=
  {| ctx_ := c |}.

(** [void restart() noexcept { co_restart(this); }] with, in this header,
    [#define co_restart(ctx) co_restart__(to_co_ctx(ctx))]. *)
Definition restart (this : Coroutine) : Coroutine :=
  to_co_ctx_store this (co_restart__ (to_co_ctx this)).

(** [bool is_ready() const noexcept { return ctx_.label == -1; }] *)
Definition is_ready (this : Coroutine) : bool := label (ctx_ this) =? -1.

(** [bool is_child() const noexcept { return ctx_.label < -1; }] *)
Definition is_child (this : Coroutine) : bool := label (ctx_ this) <? -1.

(** [bool is_parent() const noexcept { return !is_child(); }] *)
Definition is_parent (this : Coroutine) : bool := negb (is_child this).

End Cpp.

(** ** A C fragment for the statement macros *)

(** Opaque user code: an ordinary statement of the body, or the expression
    statement that follows [co_yield] or [co_fork]. *)
Definition action : Set := string.

(** An executed action with the copy of the context it could take. *)
Definition event : Set := (action * co_ctx_t)%type.

(** The machine state seen by the macros: the context, the address of its
    [label] member (the value of the pointer [_co_label_]), and the log. *)
Record mem : Set := {
  ctx : co_ctx_t;
  label_addr : Z;
  trace : list event
}.

Definition set_label (m : mem) (v : Z) : mem :=
  {| ctx := {| label := v |}; label_addr := label_addr m; trace := trace m |}.

Definition log (a : action) (m : mem) : mem :=
  {| ctx := ctx m; label_addr := label_addr m;
     trace := trace m ++ [(a, ctx m)] |}.

(** The expressions the macros use. *)
Inductive expr : Set :=
| Econst (z : Z)                 (* an integer constant *)
| Ederef                         (* [*_co_label_] *)
| Eptr                           (* [_co_label_], the pointer itself *)
| Edecl                          (* [CO_LABEL_TYPE *const _co_label_ = &(ctx)->label] *)
| Eeq (e1 e2 : expr)             (* [e1 == e2] *)
| Ene (e1 e2 : expr)             (* [e1 != e2] *)
| Elt (e1 e2 : expr)             (* [e1 < e2] *)
| Enot (e : expr)                (* [!e] *)
| Eassign (e : expr).            (* [*_co_label_ = e] *)

Definition of_bool (b : bool) : Z := if b then 1 else 0.

(** Evaluation returns the value and the state after the side effects.  A
    comparison of the pointer with an integer compares the address held in
    the pointer with that integer, which is what compilers that accept the
    comparison emit. *)
Fixpoint eval (e : expr) (m : mem) : Z * mem :=
  match e with
  | Econst z => (z, m)
  | Ederef => (label (ctx m), m)
  | Eptr => (label_addr m, m)
  | Edecl => (label_addr m, m)
  | Eeq e1 e2 =>
      let (x, m1) := eval e1 m in
      let (y, m2) := eval e2 m1 in (of_bool (x =? y), m2)
  | Ene e1 e2 =>
      let (x, m1) := eval e1 m in
      let (y, m2) := eval e2 m1 in (of_bool (negb (x =? y)), m2)
  | Elt e1 e2 =>
      let (x, m1) := eval e1 m in
      let (y, m2) := eval e2 m1 in (of_bool (x <? y), m2)
  | Enot e1 =>
      let (x, m1) := eval e1 m in (of_bool (x =? 0), m1)
  | Eassign e1 =>
      let (v, m1) := eval e1 m in (v, set_label m1 v)
  end.

Definition eval_opt (e : option expr) (m : mem) : mem :=
  match e with
  | None => m
  | Some e => snd (eval e m)
  end.

(** Statements.  [Sfor init cond incr body] is [for (init; cond; incr) body]
    with each of the three parts optional. *)
Inductive stmt : Set :=
| Sskip                                        (* [;] *)
| Sact (a : action)                            (* opaque user statement *)
| Sseq (s1 s2 : stmt)                          (* [s1 s2] in a block *)
| Sif (e : expr) (s1 s2 : stmt)                (* [if (e) s1 else s2] *)
| Sfor (init cond incr : option expr) (body : stmt)
| Sswitch (e : expr) (body : stmt)             (* [switch (e) body] *)
| Scase (z : Z) (s : stmt)                     (* [case z: s] *)
| Slabel (l : string) (s : stmt)               (* [l: s] *)
| Sgoto (l : string)                           (* [goto l;] *)
| Sbreak                                       (* [break;] *)
| Scontinue.                                   (* [continue;] *)

(** Continuations: what remains to be done after the current statement. *)
Inductive cont : Set :=
| Kstop                                        (* end of the function *)
| Kseq (s : stmt) (k : cont)                   (* then [s] *)
| Kfor (cond incr : option expr) (body : stmt) (k : cont)   (* inside a loop body *)
| Kswitch (k : cont).                          (* inside a switch body *)

(** The target of [switch (v)]: the statement labelled [case v] in [s], with
    the continuation at that place.  A [case] belongs to the innermost
    enclosing [switch], so the search does not enter a nested [switch]; it
    does enter loops and conditionals. *)
Fixpoint find_case (v : Z) (s : stmt) (k : cont) : option (stmt * cont) :=
  match s with
  | Sseq s1 s2 =>
      match find_case v s1 (Kseq s2 k) with
      | Some r => Some r
      | None => find_case v s2 k
      end
  | Sif _ s1 s2 =>
      match find_case v s1 k with
      | Some r => Some r
      | None => find_case v s2 k
      end
  | Sfor _ cond incr body => find_case v body (Kfor cond incr body k)
  | Scase z s1 => if z =? v then Some (s1, k) else find_case v s1 k
  | Slabel _ s1 => find_case v s1 k
  | Sswitch _ _ => None
  | Sskip | Sact _ | Sgoto _ | Sbreak | Scontinue => None
  end.

(** The target of [goto l] in the function body [s]. *)
Fixpoint find_label (l : string) (s : stmt) (k : cont) : option (stmt * cont) :=
  match s with
  | Sseq s1 s2 =>
      match find_label l s1 (Kseq s2 k) with
      | Some r => Some r
      | None => find_label l s2 k
      end
  | Sif _ s1 s2 =>
      match find_label l s1 k with
      | Some r => Some r
      | None => find_label l s2 k
      end
  | Sfor _ cond incr body => find_label l body (Kfor cond incr body k)
  | Sswitch _ body => find_label l body (Kswitch k)
  | Scase _ s1 => find_label l s1 k
  | Slabel l' s1 => if String.eqb l' l then Some (s1, k) else find_label l s1 k
  | Sskip | Sact _ | Sgoto _ | Sbreak | Scontinue => None
  end.

(** Configurations of the machine. *)
Inductive config : Set :=
| Run (s : stmt) (k : cont) (m : mem)          (* about to execute [s] *)
| Done (m : mem)                               (* control left the function *)
| Stuck (m : mem).                             (* no C semantics *)

(** One step.  [fn] is the body of the enclosing function, where [goto]
    looks for its label.  Jumping into a loop body skips the loop's [init];
    [continue] and the end of a loop body run [incr] and then test [cond];
    [break] leaves the innermost loop or switch without running [incr]. *)
Definition step (fn : stmt) (c : config) : config :=
  match c with
  | Done m => Done m
  | Stuck m => Stuck m
  | Run s k m =>
      match s with
      | Sskip =>
          match k with
          | Kstop => Done m
          | Kseq s2 k' => Run s2 k' m
          | Kfor cond incr body k' =>
              Run (Sfor None cond incr body) k' (eval_opt incr m)
          | Kswitch k' => Run Sskip k' m
          end
      | Sact a => Run Sskip k (log a m)
      | Sseq s1 s2 => Run s1 (Kseq s2 k) m
      | Sif e s1 s2 =>
          let (v, m') := eval e m in
          if v =? 0 then Run s2 k m' else Run s1 k m'
      | Sfor (Some i) cond incr body =>
          Run (Sfor None cond incr body) k (snd (eval i m))
      | Sfor None cond incr body =>
          match cond with
          | None => Run body (Kfor cond incr body k) m
          | Some e =>
              let (v, m') := eval e m in
              if v =? 0 then Run Sskip k m'
              else Run body (Kfor cond incr body k) m'
          end
      | Sswitch e body =>
          let (v, m') := eval e m in
          match find_case v body (Kswitch k) with
          | Some (s', k') => Run s' k' m'
          | None => Run Sskip k m'
          end
      | Scase _ s1 => Run s1 k m
      | Slabel _ s1 => Run s1 k m
      | Sgoto l =>
          match find_label l fn Kstop with
          | Some (s', k') => Run s' k' m
          | None => Stuck m
          end
      | Sbreak =>
          match k with
          | Kseq _ k' => Run Sbreak k' m
          | Kfor _ _ _ k' => Run Sskip k' m
          | Kswitch k' => Run Sskip k' m
          | Kstop => Stuck m
          end
      | Scontinue =>
          match k with
          | Kseq _ k' => Run Scontinue k' m
          | Kfor cond incr body k' =>
              Run (Sfor None cond incr body) k' (eval_opt incr m)
          | Kswitch k' => Run Scontinue k' m
          | Kstop => Stuck m
          end
      end
  end.

Fixpoint steps (fn : stmt) (n : nat) (c : config) : config :=
  match n with
  | O => c
  | S n' => steps fn n' (step fn c)
  end.

(** ** The statement macros *)

Definition _co_continue_ : string := "_co_continue_".
Definition _co_break_ : string := "_co_break_".

(** [[
#define co_reenter__(ctx) \
	for (CO_LABEL_TYPE *const _co_label_ = &(ctx)->label; \
			*_co_label_ != -1; *_co_label_ = -1) \
		if (0) { \
			goto _co_continue_; \
		_co_continue_: \
			continue; \
		} else if (0) { \
			goto _co_break_; \
		_co_break_: \
			break; \
		} else \
			switch ( *_co_label_) \
			case 0:
]] followed by the body. *)
Definition co_reenter__ (body : stmt) : stmt :=
  Sfor (Some Edecl)
       (Some (Ene Ederef (Econst (-1))))
       (Some (Eassign (Econst (-1))))
    (Sif (Econst 0)
       (Sseq (Sgoto _co_continue_) (Slabel _co_continue_ Scontinue))
       (Sif (Econst 0)
          (Sseq (Sgoto _co_break_) (Slabel _co_break_ Sbreak))
          (Sswitch Ederef
             (Scase 0 body)))).

(** [[
#define co_yield__(label) \
	for ( *_co_label_ = (label);;) \
		if (0) { \
			case (label): \
				break; \
		} else \
			switch (0) \
				for (;;) \
					if (1) \
						goto _co_continue_; \
					else \
						for (;;) \
							if (1) \
								goto _co_break_; \
							else /* falls through */ \
							case 0:
]] followed by the statement [s] written after [co_yield]. *)
Definition co_yield__ (lbl : Z) (s : stmt) : stmt :=
  Sfor (Some (Eassign (Econst lbl))) None None
    (Sif (Econst 0)
       (Scase lbl Sbreak)
       (Sswitch (Econst 0)
          (Sfor None None None
             (Sif (Econst 1)
                (Sgoto _co_continue_)
                (Sfor None None None
                   (Sif (Econst 1)
                      (Sgoto _co_break_)
                      (Scase 0 s))))))).

(** [[
#define co_fork__(label) \
	for ( *_co_label_ = -(label)-1;; *_co_label_ = (label)) \
		if (_co_label_ == (label)) { \
		case -(label)-1: break; \
		} else
]] followed by the statement [s] written after [co_fork].  The condition
    tests the pointer [_co_label_], not the label it points to. *)
Definition co_fork__ (lbl : Z) (s : stmt) : stmt :=
  Sfor (Some (Eassign (Econst (- lbl - 1)))) None (Some (Eassign (Econst lbl)))
    (Sif (Eeq Eptr (Econst lbl))
       (Scase (- lbl - 1) Sbreak)
       s).

(** ** Region bodies *)

(** What is written after the keyword [co_yield]. *)
Inductive directive : Set :=
| Dnone                      (* [co_yield;] *)
| Dexpr (a : action)         (* [co_yield a;] *)
| Dbreak                     (* [co_yield break;] *)
| Dcontinue.                 (* [co_yield continue;] *)

Inductive item : Set :=
| IStmt (a : action)                 (* an ordinary statement *)
| IYield (n : Z) (d : directive)     (* [co_yield], [co_label__] expanding to [n] *)
| IFork (n : Z) (a : action).        (* [co_fork a;], [co_label__] expanding to [n] *)

Definition yield_stmt (d : directive) : stmt :=
  match d with
  | Dnone => Sskip
  | Dexpr a => Sact a
  | Dbreak => Sbreak
  | Dcontinue => Scontinue
  end.

(** [[
#ifdef __COUNTER__
#define co_label__ (__COUNTER__ + 1)
#else
#define co_label__ __LINE__
#endif
]] [__COUNTER__] counts from 0 and [__LINE__] from 1, so either way the
    label is positive, and two expansions in one body give different labels
    (with [__LINE__], when they stand on different lines).  The items below
    carry the value [co_label__] expanded to. *)
Definition co_label__ (__COUNTER__ : Z) : Z := __COUNTER__ + 1.

(** [#define co_reenter(ctx) co_reenter__(ctx)],
    [#define co_yield co_yield__(co_label__)] and
    [#define co_fork co_fork__(co_label__)] *)
Definition co_reenter (body : stmt) : stmt := co_reenter__ body.
Definition co_yield (lbl : Z) (s : stmt) : stmt := co_yield__ lbl s.
Definition co_fork (lbl : Z) (s : stmt) : stmt := co_fork__ lbl s.

Definition compile_item (i : item) : stmt :=
  match i with
  | IStmt a => Sact a
  | IYield n d => co_yield n (yield_stmt d)
  | IFork n a => co_fork n (Sact a)
  end.

(** The block [{ i1 i2 ... }]. *)
Fixpoint compile (b : list item) : stmt :=
  match b with
  | [] => Sskip
  | i :: r => Sseq (compile_item i) (compile r)
  end.

(** [co_reenter (ctx) { b }] *)
Definition region (b : list item) : stmt := co_reenter (compile b).

(** An invocation starts at the [co_reenter] statement. *)
Definition entry (b : list item) (m : mem) : config := Run (region b) Kstop m.

Definition invoke_steps (b : list item) (n : nat) (m : mem) : config :=
  steps (region b) n (entry b m).

(** ** Runs and their big-step description *)

(** [c] reaches [c'] in some number of steps. *)
Definition reaches (fn : stmt) (c c' : config) : Prop :=
  exists n, steps fn n c = c'.

(** The invocation of the region [b] on the state [m] returns with state
    [m']. *)
Definition exits (b : list item) (m m' : mem) : Prop :=
  reaches (region b) (entry b m) (Done m').

(** [n] invocations in a row, each starting from the state the previous one
    left. *)
Inductive invocations (b : list item) : nat -> mem -> mem -> Prop :=
| invocations_O (m : mem) : invocations b O m m
| invocations_S (n : nat) (m m1 m2 : mem) :
    invocations b n m m1 -> exits b m1 m2 -> invocations b (S n) m m2.

(** The body of the [for] loop of [co_reenter__]. *)
Definition reenter_body (body : stmt) : stmt :=
  Sif (Econst 0)
    (Sseq (Sgoto _co_continue_) (Slabel _co_continue_ Scontinue))
    (Sif (Econst 0)
       (Sseq (Sgoto _co_break_) (Slabel _co_break_ Sbreak))
       (Sswitch Ederef (Scase 0 body))).

(** The continuation inside the [for] loop of [co_reenter__]. *)
Definition Kreenter (body : stmt) : cont :=
  Kfor (Some (Ene Ederef (Econst (-1)))) (Some (Eassign (Econst (-1))))
    (reenter_body body) Kstop.

(** The continuation of the statements of the region body. *)
Definition Kregion (body : stmt) : cont := Kswitch (Kreenter body).

(** The state in which a [co_yield] with label [n] leaves the region
    ([yield_exec]). *)
Definition yield_exit (n : Z) (d : directive) (m : mem) : mem :=
  match d with
  | Dnone | Dcontinue => set_label m n
  | Dexpr a => log a (set_label m n)
  | Dbreak => set_label m (-1)
  end.

(** The continuation of the statement [s] written after [co_yield]. *)
Definition Kyield (n : Z) (s : stmt) (k : cont) : cont :=
  Kfor None None
    (Sif (Econst 1) (Sgoto _co_break_) (Scase 0 s))
    (Kfor None None
       (Sif (Econst 1) (Sgoto _co_continue_)
          (Sfor None None None
             (Sif (Econst 1) (Sgoto _co_break_) (Scase 0 s))))
       (Kswitch
          (Kfor None None
             (Sif (Econst 0) (Scase n Sbreak)
                (Sswitch (Econst 0)
                   (Sfor None None None
                      (Sif (Econst 1) (Sgoto _co_continue_)
                         (Sfor None None None
                            (Sif (Econst 1) (Sgoto _co_break_)
                               (Scase 0 s)))))))
             k))).

Definition fork_body (n : Z) (s : stmt) : stmt :=
  Sif (Eeq Eptr (Econst n)) (Scase (- n - 1) Sbreak) s.

(** The continuation of the statement [s] written after [co_fork]. *)
Definition Kfork (n : Z) (s : stmt) (k : cont) : cont :=
  Kfor None (Some (Eassign (Econst n))) (fork_body n s) k.

(** The continuation of the loop that the macro of item [i] opens. *)
Definition loop_cont (i : item) (k : cont) : cont :=
  match compile_item i with
  | Sfor _ cond incr b => Kfor cond incr b k
  | _ => k
  end.

(** The first item of [b] that carries [case v], and the items after it:
    [co_yield__(n)] carries [case n] and [co_fork__(n)] carries
    [case -n-1]. *)
Fixpoint resume_at (v : Z) (b : list item) : option (item * list item) :=
  match b with
  | [] => None
  | IStmt _ :: r => resume_at v r
  | IYield n d :: r => if n =? v then Some (IYield n d, r) else resume_at v r
  | IFork n a :: r => if - n - 1 =? v then Some (IFork n a, r) else resume_at v r
  end.

(** The [case] constants of a body, in order. *)
Fixpoint case_labels (b : list item) : list Z :=
  match b with
  | [] => []
  | IStmt _ :: r => case_labels r
  | IYield n _ :: r => n :: case_labels r
  | IFork n _ :: r => (- n - 1) :: case_labels r
  end.

(** [resume_at] returns a [co_yield] or a [co_fork], never an ordinary
    statement. *)
Definition is_point (i : item) : bool :=
  match i with
  | IStmt _ => false
  | IYield _ _ | IFork _ _ => true
  end.

(** The result of running a body, as the lemmas on the expansions give it
    ([yield_exec], [fork_first], [fork_again], [fork_addr_eq],
    [fall_through]): either the invocation returns, or it is caught in the
    loop of a [co_fork n a] followed by the items [r], about to run [a] for
    the first time in state [m]. *)
Inductive outcome : Set :=
| Exited (m : mem)
| Spinning (n : Z) (a : action) (r : list item) (m : mem).

(** The items of [b] run from its first one. *)
Fixpoint run_items (b : list item) (m : mem) : outcome :=
  match b with
  | [] => Exited (set_label m (-1))
  | IStmt a :: r => run_items r (log a m)
  | IYield n d :: _ => Exited (yield_exit n d m)
  | IFork n a :: r =>
      if label_addr m =? n then run_items r (set_label m (- n - 1))
      else Spinning n a r (set_label m (- n - 1))
  end.

(** One invocation of [co_reenter (ctx) { b }]. *)
Definition invoke (b : list item) (m : mem) : outcome :=
  if label (ctx m) =? -1 then Exited m
  else if label (ctx m) =? 0 then run_items b m
  else
    match resume_at (label (ctx m)) b with
    | Some (_, r) => run_items r m
    | None => Exited (set_label m (-1))
    end.

(** The state before the [j]-th re-evaluation of the statement of a
    [co_fork] whose loop does not end. *)
Fixpoint spin_mem (n : Z) (a : action) (m : mem) (j : nat) : mem :=
  match j with
  | O => m
  | S j' => set_label (log a (spin_mem n a m j')) n
  end.

Definition is_done (c : config) : bool :=
  match c with
  | Done _ => true
  | _ => false
  end.

Definition cfg_mem (c : config) : mem :=
  match c with
  | Run _ _ m | Done m | Stuck m => m
  end.

(** The log of a configuration. *)
Definition cfg_trace (c : config) : list event := trace (cfg_mem c).

(** The events of ordinary statements that all see the context [c]. *)
Definition tagged (c : co_ctx_t) (acts : list action) : list event :=
  map (fun a => (a, c)) acts.

(** The state after the ordinary statements [acts]. *)
Definition logs (acts : list action) (m : mem) : mem :=
  {| ctx := ctx m; label_addr := label_addr m;
     trace := trace m ++ tagged (ctx m) acts |}.

(** A context just initialised with [CO_CTX_INIT], stored at [addr], and an
    empty log. *)
Definition fresh (addr : Z) : mem :=
  {| ctx := CO_CTX_INIT; label_addr := addr; trace := [] |}.

(** *** Regions of ordinary statements and suspend points

    [straight s0 [(p1, s1); ...; (pk, sk)]] is the body
    [s0 co_yield; s1 co_yield; ... co_yield; sk] whose suspend points have
    the labels [p1 ... pk]. *)
Definition suspend_then (c : Z * list action) : list item :=
  IYield (fst c) Dnone :: map IStmt (snd c).

Definition straight (s0 : list action) (rest : list (Z * list action)) : list item :=
  map IStmt s0 ++ flat_map suspend_then rest.

(** The segments with the label each one is entered with. *)
Definition chunks (s0 : list action) (rest : list (Z * list action)) :
  list (Z * list action) := (0, s0) :: rest.

Definition chunk_events (c : Z * list action) : list event :=
  tagged {| label := fst c |} (snd c).

(** The expected state after [j] invocations from a fresh context: the
    label is the one of the [j]-th suspend point, or -1 after the last
    segment, and the log holds the first [j] segments. *)
Definition state_after (addr : Z) (s0 : list action)
    (rest : list (Z * list action)) (j : nat) : mem :=
  {| ctx := {| label := nth j (map fst (chunks s0 rest)) (-1) |};
     label_addr := addr;
     trace := flat_map chunk_events (firstn j (chunks s0 rest)) |}.

(** *** Well-formed bodies and the side flag *)

(** Labels are positive, as [co_label__] makes them, and the context is not
    stored at an address that equals the label of a [co_fork]. *)
Definition item_ok (addr : Z) (i : item) : Prop :=
  match i with
  | IStmt _ => True
  | IYield n _ => 0 < n
  | IFork n _ => 0 < n /\ addr <> n
  end.

(** Where an event may see [co_is_child()] true in an invocation of the body
    [b] entered with the context [c0]: when the invocation was entered as a
    child and the label has not been stored since, or when the event is the
    statement of a [co_fork] run with the label [-n-1] that the macro has
    just stored. *)
Definition flag_ok (b : list item) (c0 : co_ctx_t) (e : event) : Prop :=
  co_is_child (snd e) = true ->
  (co_is_child c0 = true /\ snd e = c0) \/
  (exists n, In (IFork n (fst e)) b /\ snd e = {| label := - n - 1 |}).

(** The logs that can be observed in a run with the given outcome. *)
Definition outcome_logs (o : outcome) (tr : list event) : Prop :=
  match o with
  | Exited m' => tr = trace m'
  | Spinning n a _ m' => exists j, tr = trace (spin_mem n a m' j)
  end.

(** The state an outcome returns with, if it returns. *)
Definition exit_state (o : outcome) : option mem :=
  match o with
  | Exited m => Some m
  | Spinning _ _ _ _ => None
  end.

(** The body of the example of the header's documentation of [co_fork],
    without the loop: [A; co_fork E; B;]. *)
Definition fork_example : list item := [IStmt "A"; IFork 1 "E"; IStmt "B"].

(** A body with a [co_fork], the ordinary statements [acts] after it and
    then the items [rest]. *)
Definition after_fork (pre : list item) (n : Z) (a : action)
    (acts : list action) (rest : list item) : list item :=
  pre ++ IFork n a :: map IStmt acts ++ rest.

(** Two branch points before the next suspend point:
    [A; co_fork E; B; co_fork E2; C; co_yield;]. *)
Definition two_forks : list item :=
  [IStmt "A"; IFork 1 "E"; IStmt "B"; IFork 2 "E2"; IStmt "C"; IYield 3 Dnone].

(** *** Further bodies and predicates *)

(** The suspend points of a body whose labels come from successive
    expansions of [co_label__] with [__COUNTER__], the first one expanding
    with the counter at [c]. *)
Fixpoint counter_rest (c : Z) (segs : list (list action)) : list (Z * list action) :=
  match segs with
  | [] => []
  | seg :: r => (co_label__ c, seg) :: counter_rest (c + 1) r
  end.

(** No [co_fork] in the body. *)
Definition fork_free (b : list item) : bool :=
  forallb (fun i => match i with IFork _ _ => false | _ => true end) b.

Definition is_stuck (c : config) : bool :=
  match c with
  | Stuck _ => true
  | _ => false
  end.

(** [co_restart(ctx)] on the context of a state. *)
Definition restart_mem (m : mem) : mem :=
  {| ctx := co_restart (ctx m); label_addr := label_addr m; trace := trace m |}.

(** An invocation of [co_reenter (ctx) body] for any statement [body]. *)
Definition entry_stmt (body : stmt) (m : mem) : config :=
  Run (co_reenter body) Kstop m.

(** The body [for (;;) { acts co_yield; }]: a [co_yield] in a loop. *)
Definition generator (acts : list action) (n : Z) : stmt :=
  Sfor None None None (compile (map IStmt acts ++ [IYield n Dnone])).

(** The body [pre switch (0) { case 0: acts co_yield; inner } post]: a
    [co_yield] in a nested [switch]. *)
Definition switch_body (pre acts : list action) (n : Z)
    (inner post : list item) : stmt :=
  Sseq (compile (map IStmt pre))
    (Sseq
       (Sswitch (Econst 0)
          (Scase 0 (compile (map IStmt acts ++ IYield n Dnone :: inner))))
       (compile post)).

(** ** Running the machine *)

Lemma steps_add (fn : stmt) (n k : nat) (c : config) :
  steps fn (n + k) c = steps fn k (steps fn n c).
Proof.
  revert c; induction n as [|n IH]; intros c; simpl; [reflexivity|apply IH].
Qed.

Lemma steps_Done (fn : stmt) (n : nat) (m : mem) :
  steps fn n (Done m) = Done m.
Proof.
  induction n as [|n IH]; simpl; [reflexivity|exact IH].
Qed.

Lemma reaches_refl (fn : stmt) (c : config) : reaches fn c c.
Proof. exists 0%nat; reflexivity. Qed.

Lemma reaches_trans (fn : stmt) (c1 c2 c3 : config) :
  reaches fn c1 c2 -> reaches fn c2 c3 -> reaches fn c1 c3.
Proof.
  intros [n1 H1] [n2 H2]; exists (n1 + n2)%nat.
  rewrite steps_add, H1; exact H2.
Qed.

Lemma reaches_steps (fn : stmt) (n : nat) (c c' : config) :
  steps fn n c = c' -> reaches fn c c'.
Proof. intros H; exists n; exact H. Qed.

(** A configuration that is [Done] stays so, hence the final state of a run
    is unique. *)
Lemma reaches_Done_unique (fn : stmt) (c : config) (m1 m2 : mem) :
  reaches fn c (Done m1) -> reaches fn c (Done m2) -> m1 = m2.
Proof.
  intros [n1 H1] [n2 H2].
  assert (E : steps fn (n1 + n2) c = steps fn (n2 + n1) c)
    by (f_equal; lia).
  rewrite !steps_add, H1, H2, !steps_Done in E.
  congruence.
Qed.

(** ** The parts of the expansion of [co_reenter__] *)

Section Reenter.

Variable body : stmt.
(** [goto _co_break_] leaves the region and keeps the label. *)
Lemma goto_co_break (k : cont) (m : mem) :
  steps (co_reenter__ body) 3 (Run (Sgoto _co_break_) k m) = Done m.
Proof. reflexivity. Qed.

(** [goto _co_continue_] runs the increment of the [for] loop of
    [co_reenter__], which stores -1, and leaves the region. *)
Lemma goto_co_continue (k : cont) (m : mem) :
  steps (co_reenter__ body) 4 (Run (Sgoto _co_continue_) k m) = Done (set_label m (-1)).
Proof. reflexivity. Qed.

(** Reaching the end of the body does the same. *)
Lemma fall_through (m : mem) :
  steps (co_reenter__ body) 4 (Run Sskip (Kregion body) m) = Done (set_label m (-1)).
Proof. reflexivity. Qed.

(** With label -1 the loop condition fails at once. *)
Lemma entry_finished (m : mem) :
  label (ctx m) = -1 -> steps (co_reenter__ body) 3 (Run (co_reenter__ body) Kstop m) = Done m.
Proof.
  intros H; simpl. rewrite H; reflexivity.
Qed.

(** Otherwise the [switch] is reached and selects a [case]. *)
Lemma entry_switch (m : mem) :
  label (ctx m) <> -1 ->
  steps (co_reenter__ body) 5 (Run (co_reenter__ body) Kstop m) =
  match find_case (label (ctx m)) (Scase 0 body) (Kregion body) with
  | Some (s', k') => Run s' k' m
  | None => Run Sskip (Kreenter body) m
  end.
Proof.
  intros H; simpl.
  apply Z.eqb_neq in H; rewrite H; simpl.
  reflexivity.
Qed.

(** No matching [case]: the body is skipped and the increment stores -1. *)
Lemma no_case_exit (m : mem) :
  steps (co_reenter__ body) 3 (Run Sskip (Kreenter body) m) = Done (set_label m (-1)).
Proof. reflexivity. Qed.

(** *** [co_yield] *)

(** A [co_yield] first stores its label, then runs the statement written
    after it. *)
Lemma yield_store_first (n : Z) (s : stmt) (k : cont) (m : mem) :
  steps (co_reenter__ body) 4 (Run (co_yield__ n s) k m) = Run s (Kyield n s k) (set_label m n).
Proof. reflexivity. Qed.

Lemma yield_exec (n : Z) (d : directive) (k : cont) (m : mem) :
  steps (co_reenter__ body) 12 (Run (co_yield__ n (yield_stmt d)) k m) = Done (yield_exit n d m).
Proof. destruct d; reflexivity. Qed.

(** *** [co_fork] *)

(** When the context is not stored at address [n], the condition of
    [co_fork__] is false: the statement is run with label [-n-1]... *)
Lemma fork_first (n : Z) (s : stmt) (k : cont) (m : mem) :
  label_addr m <> n ->
  steps (co_reenter__ body) 3 (Run (co_fork__ n s) k m) =
  Run s (Kfork n s k) (set_label m (- n - 1)).
Proof.
  intros H; simpl.
  apply Z.eqb_neq in H; rewrite H; reflexivity.
Qed.

(** ... and after it the increment stores [n], the condition is false again
    and the statement is run again. *)
Lemma fork_again (n : Z) (a : action) (k : cont) (m : mem) :
  label_addr m <> n ->
  steps (co_reenter__ body) 4 (Run (Sact a) (Kfork n (Sact a) k) m) =
  Run (Sact a) (Kfork n (Sact a) k) (set_label (log a m) n).
Proof.
  intros H; simpl.
  apply Z.eqb_neq in H; rewrite H; reflexivity.
Qed.

(** When the context is stored at address [n], the condition is true the
    first time: the loop is left with label [-n-1] and the statement is not
    run. *)
Lemma fork_addr_eq (n : Z) (s : stmt) (k : cont) (m : mem) :
  label_addr m = n ->
  steps (co_reenter__ body) 5 (Run (co_fork__ n s) k m) = Run Sskip k (set_label m (- n - 1)).
Proof.
  intros H; simpl.
  rewrite H, Z.eqb_refl; reflexivity.
Qed.

End Reenter.

(** ** Dispatch into a region body *)

Lemma find_case_compile (v : Z) (b : list item) (k : cont) :
  find_case v (compile b) k =
  match resume_at v b with
  | Some (i, r) => Some (Sbreak, loop_cont i (Kseq (compile r) k))
  | None => None
  end.
Proof.
  induction b as [|i r IH]; [reflexivity|].
  destruct i as [a|n d|n a]; simpl.
  - exact IH.
  - destruct (n =? v); [reflexivity|exact IH].
  - destruct (- n - 1 =? v); [reflexivity|exact IH].
Qed.

Lemma resume_at_not_in (v : Z) (b : list item) :
  ~ In v (case_labels b) -> resume_at v b = None.
Proof.
  induction b as [|i r IH]; [reflexivity|].
  destruct i as [a|n d|n a]; simpl; intros H.
  - apply IH, H.
  - destruct (Z.eqb_spec n v) as [E|E]; [exfalso; apply H; left; exact E|].
    apply IH; intros Hin; apply H; right; exact Hin.
  - destruct (Z.eqb_spec (- n - 1) v) as [E|E]; [exfalso; apply H; left; exact E|].
    apply IH; intros Hin; apply H; right; exact Hin.
Qed.

Lemma resume_at_app (v : Z) (pre b : list item) :
  ~ In v (case_labels pre) -> resume_at v (pre ++ b) = resume_at v b.
Proof.
  induction pre as [|i r IH]; [reflexivity|].
  destruct i as [a|n d|n a]; simpl; intros H.
  - apply IH, H.
  - destruct (Z.eqb_spec n v) as [E|E]; [exfalso; apply H; left; exact E|].
    apply IH; intros Hin; apply H; right; exact Hin.
  - destruct (Z.eqb_spec (- n - 1) v) as [E|E]; [exfalso; apply H; left; exact E|].
    apply IH; intros Hin; apply H; right; exact Hin.
Qed.

Lemma case_labels_app (b1 b2 : list item) :
  case_labels (b1 ++ b2) = case_labels b1 ++ case_labels b2.
Proof.
  induction b1 as [|i r IH]; [reflexivity|].
  destruct i; simpl; rewrite IH; reflexivity.
Qed.

Lemma resume_at_point (v : Z) (b : list item) (i : item) (r : list item) :
  resume_at v b = Some (i, r) -> is_point i = true.
Proof.
  induction b as [|j b IH]; [discriminate|].
  destruct j as [a|n d|n a]; simpl.
  - exact IH.
  - destruct (n =? v); [intros E; injection E as <- _; reflexivity|exact IH].
  - destruct (- n - 1 =? v); [intros E; injection E as <- _; reflexivity|exact IH].
Qed.

(** Landing on the [break] after a [case] leaves the loop of the macro
    without running its increment and goes on with the next item. *)
Lemma land_after (fn : stmt) (i : item) (r : list item) (k : cont) (m : mem) :
  is_point i = true ->
  steps fn 2 (Run Sbreak (loop_cont i (Kseq (compile r) k)) m) =
  Run (compile r) k m.
Proof. destruct i as [a|n d|n a]; [discriminate|reflexivity|reflexivity]. Qed.

(** An invocation whose label selects a [case] of the body goes straight to
    the items after it; nothing is run and the state is unchanged. *)
Lemma dispatch_to_case (b : list item) (m : mem) (i : item) (r : list item) :
  label (ctx m) <> -1 -> label (ctx m) <> 0 ->
  resume_at (label (ctx m)) b = Some (i, r) ->
  steps (region b) 7 (entry b m) = Run (compile r) (Kregion (compile b)) m.
Proof.
  intros H1 H0 Hr.
  change 7%nat with (5 + 2)%nat; rewrite steps_add.
  unfold entry, region, co_reenter; rewrite (entry_switch _ _ H1).
  cbn [find_case].
  destruct (Z.eqb_spec 0 (label (ctx m))) as [E|_]; [congruence|].
  rewrite find_case_compile, Hr.
  apply land_after, (resume_at_point _ _ _ _ Hr).
Qed.

Lemma dispatch_to_start (b : list item) (m : mem) :
  label (ctx m) = 0 ->
  steps (region b) 5 (entry b m) = Run (compile b) (Kregion (compile b)) m.
Proof.
  intros H0.
  unfold entry, region, co_reenter; rewrite entry_switch by lia.
  cbn [find_case]; rewrite H0; reflexivity.
Qed.

Lemma dispatch_nowhere (b : list item) (m : mem) :
  label (ctx m) <> -1 -> label (ctx m) <> 0 ->
  resume_at (label (ctx m)) b = None ->
  steps (region b) 8 (entry b m) = Done (set_label m (-1)).
Proof.
  intros H1 H0 Hr.
  change 8%nat with (5 + 3)%nat; rewrite steps_add.
  unfold entry, region, co_reenter; rewrite (entry_switch _ _ H1).
  cbn [find_case].
  destruct (Z.eqb_spec 0 (label (ctx m))) as [E|_]; [congruence|].
  rewrite find_case_compile, Hr.
  apply no_case_exit.
Qed.

(** ** What one invocation does, item by item *)

Lemma spin_mem_addr (n : Z) (a : action) (m : mem) (j : nat) :
  label_addr (spin_mem n a m j) = label_addr m.
Proof. induction j as [|j IH]; [reflexivity|exact IH]. Qed.

Section Simulation.

Variable body : stmt.

Lemma spin_steps (n : Z) (a : action) (k : cont) (m : mem) (j : nat) :
  label_addr m <> n ->
  steps (co_reenter__ body) (4 * j) (Run (Sact a) (Kfork n (Sact a) k) m) =
  Run (Sact a) (Kfork n (Sact a) k) (spin_mem n a m j).
Proof.
  intros H; induction j as [|j IH]; [reflexivity|].
  replace (4 * S j)%nat with (4 * j + 4)%nat by lia.
  rewrite steps_add, IH.
  apply fork_again. rewrite spin_mem_addr; exact H.
Qed.

(** The loop of a [co_fork] never ends when the context is not stored at the
    address equal to its label. *)
Lemma spin_never_done (n : Z) (a : action) (k : cont) (m : mem) (j : nat) :
  label_addr m <> n ->
  is_done (steps (co_reenter__ body) j (Run (Sact a) (Kfork n (Sact a) k) m)) = false.
Proof.
  intros H.
  rewrite (Nat.div_mod_eq j 4), steps_add, (spin_steps _ _ _ _ _ H).
  assert (L : (j mod 4 < 4)%nat) by (apply Nat.mod_upper_bound; lia).
  destruct (j mod 4)%nat as [|[|[|[|q]]]]; try reflexivity; lia.
Qed.

Lemma run_items_sound (b : list item) (m : mem) :
  match run_items b m with
  | Exited m' =>
      reaches (co_reenter__ body) (Run (compile b) (Kregion body) m) (Done m')
  | Spinning n a r m' =>
      reaches (co_reenter__ body) (Run (compile b) (Kregion body) m)
        (Run (Sact a) (Kfork n (Sact a) (Kseq (compile r) (Kregion body))) m')
      /\ label_addr m' <> n
  end.
Proof.
  revert m; induction b as [|i r IH]; intros m.
  - exists 4%nat; apply fall_through.
  - destruct i as [a|n d|n a]; simpl.
    + specialize (IH (log a m)).
      assert (R : reaches (co_reenter__ body)
                    (Run (compile (IStmt a :: r)) (Kregion body) m)
                    (Run (compile r) (Kregion body) (log a m)))
        by (exists 3%nat; reflexivity).
      destruct (run_items r (log a m)) as [m'|n' a' r' m'].
      * eapply reaches_trans; [exact R|exact IH].
      * destruct IH as [IH Ha]; split; [|exact Ha].
        eapply reaches_trans; [exact R|exact IH].
    + exists (1 + 12)%nat; rewrite steps_add; simpl steps at 2.
      apply yield_exec.
    + destruct (Z.eqb_spec (label_addr m) n) as [E|E].
      * specialize (IH (set_label m (- n - 1))).
        assert (R : reaches (co_reenter__ body)
                      (Run (compile (IFork n a :: r)) (Kregion body) m)
                      (Run (compile r) (Kregion body) (set_label m (- n - 1)))).
        { exists (1 + 5 + 1)%nat; rewrite !steps_add; simpl steps at 3.
          rewrite (fork_addr_eq _ _ _ _ _ E); reflexivity. }
        destruct (run_items r (set_label m (- n - 1))) as [m'|n' a' r' m'].
        -- eapply reaches_trans; [exact R|exact IH].
        -- destruct IH as [IH Ha]; split; [|exact Ha].
           eapply reaches_trans; [exact R|exact IH].
      * split; [|exact E].
        exists (1 + 3)%nat; rewrite steps_add; simpl steps at 2.
        apply fork_first, E.
Qed.

End Simulation.

(** The machine run on the expansion of the macros does what [invoke]
    says. *)
Lemma invoke_sound (b : list item) (m : mem) :
  match invoke b m with
  | Exited m' => exits b m m'
  | Spinning n a r m' =>
      reaches (region b) (entry b m)
        (Run (Sact a)
           (Kfork n (Sact a) (Kseq (compile r) (Kregion (compile b)))) m')
      /\ label_addr m' <> n
  end.
Proof.
  unfold invoke.
  destruct (Z.eqb_spec (label (ctx m)) (-1)) as [E1|E1].
  { exists 3%nat; apply entry_finished, E1. }
  destruct (Z.eqb_spec (label (ctx m)) 0) as [E0|E0].
  { pose proof (run_items_sound (compile b) b m) as H.
    pose proof (reaches_steps _ _ _ _ (dispatch_to_start b m E0)) as R.
    destruct (run_items b m) as [m'|n a r m'].
    - eapply reaches_trans; [exact R|exact H].
    - destruct H as [H Ha]; split; [|exact Ha].
      eapply reaches_trans; [exact R|exact H]. }
  destruct (resume_at (label (ctx m)) b) as [[i r]|] eqn:Hr.
  - pose proof (run_items_sound (compile b) r m) as H.
    pose proof (reaches_steps _ _ _ _ (dispatch_to_case b m i r E1 E0 Hr)) as R.
    destruct (run_items r m) as [m'|n a r' m'].
    + eapply reaches_trans; [exact R|exact H].
    + destruct H as [H Ha]; split; [|exact Ha].
      eapply reaches_trans; [exact R|exact H].
  - exists 8%nat; apply dispatch_nowhere; assumption.
Qed.

(** A run that reaches a configuration from which [Done] is never reached
    does not reach [Done] either. *)
Lemma never_done_from (fn : stmt) (c c' : config) :
  reaches fn c c' ->
  (forall j, is_done (steps fn j c') = false) ->
  forall j, is_done (steps fn j c) = false.
Proof.
  intros [n0 H0] Hnever j.
  destruct (Nat.le_gt_cases n0 j) as [L|L].
  - replace j with (n0 + (j - n0))%nat by lia.
    rewrite steps_add, H0; apply Hnever.
  - destruct (steps fn j c) as [s k m| m | m] eqn:E; try reflexivity.
    exfalso.
    assert (D : steps fn n0 c = Done m).
    { replace n0 with (j + (n0 - j))%nat by lia.
      rewrite steps_add, E; apply steps_Done. }
    specialize (Hnever 0%nat); simpl in Hnever.
    rewrite <- H0, D in Hnever; discriminate.
Qed.

(** The invocation returns exactly when [invoke] says so, with the state
    [invoke] gives. *)
Lemma exits_iff_invoke (b : list item) (m m' : mem) :
  exits b m m' <-> invoke b m = Exited m'.
Proof.
  pose proof (invoke_sound b m) as H.
  split.
  - intros Hex.
    destruct (invoke b m) as [m1|n a r m1].
    + f_equal; eapply reaches_Done_unique; [exact H|exact Hex].
    + destruct H as [H Ha].
      destruct Hex as [j Hj].
      pose proof (never_done_from _ _ _ H
                    (fun j => spin_never_done (compile b) n a _ m1 j Ha) j) as N.
      unfold region, co_reenter in N, Hj; rewrite Hj in N; discriminate.
  - intros E; rewrite E in H; exact H.
Qed.


(** ** Regions of ordinary statements and suspend points *)

Lemma logs_cons (a : action) (acts : list action) (m : mem) :
  logs acts (log a m) = logs (a :: acts) m.
Proof.
  unfold logs, log; simpl. rewrite <- app_assoc; reflexivity.
Qed.

Lemma run_items_stmts (acts : list action) (r : list item) (m : mem) :
  run_items (map IStmt acts ++ r) m = run_items r (logs acts m).
Proof.
  revert m; induction acts as [|a acts IH]; intros m; simpl.
  - unfold logs, tagged; simpl. rewrite app_nil_r. destruct m; reflexivity.
  - rewrite IH, logs_cons; reflexivity.
Qed.

Lemma case_labels_stmts (acts : list action) :
  case_labels (map IStmt acts) = [].
Proof. induction acts as [|a acts IH]; [reflexivity|exact IH]. Qed.

Lemma case_labels_straight_tail (rest : list (Z * list action)) :
  case_labels (flat_map suspend_then rest) = map fst rest.
Proof.
  induction rest as [|[p seg] rest IH]; [reflexivity|].
  simpl. rewrite case_labels_app, case_labels_stmts, IH; reflexivity.
Qed.

Lemma run_straight_tail (seg : list action) (rest : list (Z * list action)) (m : mem) :
  run_items (map IStmt seg ++ flat_map suspend_then rest) m =
  Exited (set_label (logs seg m) (hd (-1) (map fst rest))).
Proof.
  rewrite run_items_stmts.
  destruct rest as [|[p s] rest]; reflexivity.
Qed.

Lemma resume_straight (s0 : list action) (r1 r2 : list (Z * list action))
    (p : Z) (seg : list action) :
  ~ In p (map fst r1) ->
  resume_at p (straight s0 (r1 ++ (p, seg) :: r2)) =
  Some (IYield p Dnone, map IStmt seg ++ flat_map suspend_then r2).
Proof.
  intros H. unfold straight.
  rewrite flat_map_app, !resume_at_app.
  - simpl. rewrite Z.eqb_refl; reflexivity.
  - rewrite case_labels_straight_tail; exact H.
  - rewrite case_labels_stmts; intros [].
Qed.

Lemma invoke_straight_first (s0 : list action) (rest : list (Z * list action)) (m : mem) :
  label (ctx m) = 0 ->
  invoke (straight s0 rest) m =
  Exited (set_label (logs s0 m) (hd (-1) (map fst rest))).
Proof.
  intros H; unfold invoke; rewrite H; simpl.
  apply run_straight_tail.
Qed.

Lemma invoke_straight_next (s0 : list action) (r1 r2 : list (Z * list action))
    (p : Z) (seg : list action) (m : mem) :
  0 < p -> ~ In p (map fst r1) -> label (ctx m) = p ->
  invoke (straight s0 (r1 ++ (p, seg) :: r2)) m =
  Exited (set_label (logs seg m) (hd (-1) (map fst r2))).
Proof.
  intros Hp Hin H; unfold invoke; rewrite H.
  destruct (Z.eqb_spec p (-1)) as [E|_]; [lia|].
  destruct (Z.eqb_spec p 0) as [E|_]; [lia|].
  rewrite (resume_straight _ _ _ _ _ Hin).
  apply run_straight_tail.
Qed.

(** After [1 + length r1] invocations the suspend points of [r1] are
    behind. *)
Lemma straight_chain (addr : Z) (s0 : list action) (r1 : list (Z * list action)) :
  forall r2 : list (Z * list action),
  NoDup (map fst (r1 ++ r2)) ->
  Forall (fun p => 0 < p) (map fst (r1 ++ r2)) ->
  invocations (straight s0 (r1 ++ r2)) (S (List.length r1)) (fresh addr)
    {| ctx := {| label := hd (-1) (map fst r2) |};
       label_addr := addr;
       trace := flat_map chunk_events ((0, s0) :: r1) |}.
Proof.
  induction r1 as [|[p seg] r1 IH] using rev_ind; intros r2 Hnd Hpos.
  - simpl. eapply invocations_S; [apply invocations_O|].
    apply exits_iff_invoke.
    rewrite invoke_straight_first by reflexivity.
    unfold set_label, logs, chunk_events; simpl. rewrite app_nil_r; reflexivity.
  - rewrite <- app_assoc in Hnd, Hpos |- *. simpl app in Hnd, Hpos |- *.
    rewrite length_app, Nat.add_1_r.
    eapply invocations_S; [apply (IH _ Hnd Hpos)|].
    apply exits_iff_invoke.
    rewrite invoke_straight_next.
    + unfold set_label, logs; simpl.
      rewrite flat_map_app; simpl. rewrite app_nil_r, app_assoc; reflexivity.
    + rewrite map_app, Forall_app in Hpos. destruct Hpos as [_ Hpos].
      inversion Hpos; assumption.
    + rewrite map_app in Hnd. apply NoDup_remove_2 in Hnd.
      intros Hin; apply Hnd, in_or_app; left; exact Hin.
    + reflexivity.
Qed.

Lemma hd_skipn_nth_default (A : Type) (d : A) (l : list A) (n : nat) :
  hd d (skipn n l) = nth n l d.
Proof.
  revert l; induction n as [|n IH]; intros [|x l]; simpl; auto.
Qed.

Lemma straight_invocations (addr : Z) (s0 : list action)
    (rest : list (Z * list action)) (j : nat) :
  NoDup (map fst rest) ->
  Forall (fun p => 0 < p) (map fst rest) ->
  (j <= S (List.length rest))%nat ->
  invocations (straight s0 rest) j (fresh addr) (state_after addr s0 rest j).
Proof.
  intros Hnd Hpos Hj.
  destruct j as [|i]; [apply invocations_O|].
  pose proof (straight_chain addr s0 (firstn i rest) (skipn i rest)) as H.
  rewrite firstn_skipn in H. specialize (H Hnd Hpos).
  rewrite length_firstn, Nat.min_l in H by lia.
  unfold state_after, chunks; simpl.
  rewrite <- skipn_map, hd_skipn_nth_default in H.
  exact H.
Qed.

(** ** The log only grows *)

Lemma eval_frame (e : expr) (m : mem) :
  trace (snd (eval e m)) = trace m /\
  label_addr (snd (eval e m)) = label_addr m.
Proof.
  revert m; induction e as [z| | | |e1 IH1 e2 IH2|e1 IH1 e2 IH2|e1 IH1 e2 IH2|e IH|e IH];
    intros m; simpl; auto.
  - specialize (IH1 m); destruct (eval e1 m) as [x m1]; simpl in IH1.
    specialize (IH2 m1); destruct (eval e2 m1) as [y m2]; simpl in *.
    destruct IH1, IH2; split; congruence.
  - specialize (IH1 m); destruct (eval e1 m) as [x m1]; simpl in IH1.
    specialize (IH2 m1); destruct (eval e2 m1) as [y m2]; simpl in *.
    destruct IH1, IH2; split; congruence.
  - specialize (IH1 m); destruct (eval e1 m) as [x m1]; simpl in IH1.
    specialize (IH2 m1); destruct (eval e2 m1) as [y m2]; simpl in *.
    destruct IH1, IH2; split; congruence.
  - specialize (IH m); destruct (eval e m) as [x m1]; exact IH.
  - specialize (IH m); destruct (eval e m) as [x m1]; exact IH.
Qed.

Lemma eval_opt_trace (e : option expr) (m : mem) :
  trace (eval_opt e m) = trace m.
Proof. destruct e as [e|]; [apply eval_frame|reflexivity]. Qed.

Lemma step_trace (fn : stmt) (c : config) :
  exists ext, cfg_trace (step fn c) = cfg_trace c ++ ext.
Proof.
  assert (same : forall t t0 : list event, t = t0 -> exists ext, t = t0 ++ ext)
    by (intros t t0 E; exists []; rewrite app_nil_r; exact E).
  unfold cfg_trace.
  destruct c as [s k m|m|m]; try (apply same; reflexivity).
  destruct s as [|a|s1 s2|e s1 s2|init cond incr b|e b|z s1|l s1|l| |]; simpl.
  - destruct k; simpl; apply same; try reflexivity; apply eval_opt_trace.
  - exists [(a, ctx m)]; reflexivity.
  - apply same; reflexivity.
  - pose proof (eval_frame e m) as [F _]. destruct (eval e m) as [v m'].
    destruct (v =? 0); apply same; exact F.
  - destruct init as [i|].
    + apply same; apply eval_frame.
    + destruct cond as [e|]; [|apply same; reflexivity].
      pose proof (eval_frame e m) as [F _]. destruct (eval e m) as [v m'].
      destruct (v =? 0); apply same; exact F.
  - pose proof (eval_frame e m) as [F _]. destruct (eval e m) as [v m'].
    destruct (find_case v b (Kswitch k)) as [[s' k']|]; apply same; exact F.
  - apply same; reflexivity.
  - apply same; reflexivity.
  - destruct (find_label l fn Kstop) as [[s' k']|]; apply same; reflexivity.
  - destruct k; apply same; reflexivity.
  - destruct k; simpl; apply same; try reflexivity; apply eval_opt_trace.
Qed.

Lemma steps_trace (fn : stmt) (n : nat) (c : config) :
  exists ext, cfg_trace (steps fn n c) = cfg_trace c ++ ext.
Proof.
  revert c; induction n as [|n IH]; intros c; simpl.
  - exists []; rewrite app_nil_r; reflexivity.
  - destruct (IH (step fn c)) as [e2 H2], (step_trace fn c) as [e1 H1].
    exists (e1 ++ e2). rewrite H2, H1, app_assoc; reflexivity.
Qed.

(** A property of all events that holds at arbitrarily late moments of a
    run holds at every moment. *)
Lemma trace_within (fn : stmt) (c : config) (Q : event -> Prop) :
  (forall n, exists n', (n <= n')%nat /\ Forall Q (cfg_trace (steps fn n' c))) ->
  forall n, Forall Q (cfg_trace (steps fn n c)).
Proof.
  intros H n. destruct (H n) as (n' & L & F).
  replace n' with (n + (n' - n))%nat in F by lia.
  rewrite steps_add in F.
  destruct (steps_trace fn (n' - n) (steps fn n c)) as [ext E].
  rewrite E in F. apply Forall_app in F; apply F.
Qed.

(** What holds of every log that [invoke] predicts holds of the log at
    every step of the machine. *)
Lemma invoke_traces (b : list item) (m : mem) (Q : event -> Prop) :
  (forall tr, outcome_logs (invoke b m) tr -> Forall Q tr) ->
  forall n, Forall Q (cfg_trace (invoke_steps b n m)).
Proof.
  intros H. apply trace_within. intros n.
  pose proof (invoke_sound b m) as S.
  destruct (invoke b m) as [m'|f a r m'].
  - destruct S as [n0 S]. exists (n0 + n)%nat; split; [lia|].
    rewrite steps_add, S, steps_Done. apply H; reflexivity.
  - destruct S as [[n0 S] Ha]. exists (n0 + 4 * n)%nat; split; [lia|].
    rewrite steps_add, S. unfold region, co_reenter; rewrite (spin_steps _ _ _ _ _ _ Ha).
    apply H. exists n; reflexivity.
Qed.

(** ** The side flag *)

Lemma resume_at_suffix (v : Z) (b : list item) (i : item) (r : list item) :
  resume_at v b = Some (i, r) -> exists pre, b = pre ++ i :: r.
Proof.
  induction b as [|j b IH]; [discriminate|].
  assert (next : resume_at v b = Some (i, r) -> exists pre, j :: b = pre ++ i :: r).
  { intros H; destruct (IH H) as [pre E]; exists (j :: pre); rewrite E; reflexivity. }
  destruct j as [a|n d|n a]; simpl.
  - exact next.
  - destruct (n =? v); [|exact next].
    intros E; injection E as <- <-; exists []; reflexivity.
  - destruct (- n - 1 =? v); [|exact next].
    intros E; injection E as <- <-; exists []; reflexivity.
Qed.

Lemma positive_not_child (n : Z) : -1 <= n -> co_is_child {| label := n |} = false.
Proof. intros H; unfold co_is_child; simpl; apply Z.ltb_ge; exact H. Qed.

Lemma flag_ok_parent (b : list item) (c0 : co_ctx_t) (a : action) (n : Z) :
  -1 <= n -> flag_ok b c0 (a, {| label := n |}).
Proof.
  intros H C; simpl in C. rewrite positive_not_child in C by exact H.
  discriminate.
Qed.

Lemma spin_flag (b : list item) (c0 : co_ctx_t) (n : Z) (a : action) (m : mem) (j : nat) :
  0 < n -> In (IFork n a) b -> ctx m = {| label := - n - 1 |} ->
  Forall (flag_ok b c0) (trace m) ->
  Forall (flag_ok b c0) (trace (spin_mem n a m j)) /\
  (ctx (spin_mem n a m j) = {| label := - n - 1 |} \/
   ctx (spin_mem n a m j) = {| label := n |}).
Proof.
  intros Hn Hin Hc F; induction j as [|j [IH C]]; [split; [exact F|left; exact Hc]|].
  split; [|right; reflexivity].
  simpl. apply Forall_app; split; [exact IH|].
  constructor; [|constructor].
  destruct C as [C|C]; rewrite C.
  - intros _; right; exists n; split; [exact Hin|reflexivity].
  - apply flag_ok_parent; lia.
Qed.

Lemma run_items_flag (b : list item) (c0 : co_ctx_t) (r : list item) :
  forall m : mem,
  incl r b -> Forall (item_ok (label_addr m)) r -> ctx m = c0 ->
  Forall (flag_ok b c0) (trace m) ->
  forall tr, outcome_logs (run_items r m) tr -> Forall (flag_ok b c0) tr.
Proof.
  induction r as [|i r IH]; intros m Hin Hok Hc F tr Ho.
  - simpl in Ho; subst tr; exact F.
  - assert (Hin' : incl r b) by (intros x Hx; apply Hin; right; exact Hx).
    inversion Hok as [|i' r' Hi Hr]; subst i' r'.
    destruct i as [a|n d|n a]; simpl in Ho, Hi.
    + apply (IH (log a m)); try assumption.
      simpl. apply Forall_app; split; [exact F|].
      constructor; [|constructor].
      rewrite Hc; intros C; left; split; [exact C|reflexivity].
    + subst tr. destruct d as [|a| |]; simpl; try exact F.
      apply Forall_app; split; [exact F|].
      constructor; [|constructor]. apply flag_ok_parent; lia.
    + destruct Hi as [Hn Ha].
      destruct (Z.eqb_spec (label_addr m) n) as [E|_]; [contradiction|].
      destruct Ho as [j ->].
      apply spin_flag; try assumption; try reflexivity.
      apply Hin; left; reflexivity.
Qed.

Lemma run_items_exit_flag (r : list item) :
  forall m m' : mem,
  Forall (item_ok (label_addr m)) r -> run_items r m = Exited m' ->
  co_is_child (ctx m') = false.
Proof.
  induction r as [|i r IH]; intros m m' Hok E.
  - injection E as <-; reflexivity.
  - inversion Hok as [|i' r' Hi Hr]; subst i' r'.
    destruct i as [a|n d|n a]; simpl in E, Hi.
    + apply (IH (log a m)); assumption.
    + injection E as <-. destruct d; simpl;
        try (apply positive_not_child; lia); reflexivity.
    + destruct Hi as [Hn Ha].
      destruct (Z.eqb_spec (label_addr m) n) as [E'|_]; [contradiction|].
      discriminate.
Qed.

Lemma item_ok_suffix (addr : Z) (pre r : list item) (i : item) :
  Forall (item_ok addr) (pre ++ i :: r) -> Forall (item_ok addr) r.
Proof.
  intros H; apply Forall_app in H; destruct H as [_ H].
  inversion H; assumption.
Qed.

Lemma invoke_flag (b : list item) (m : mem) :
  Forall (item_ok (label_addr m)) b -> trace m = [] ->
  forall tr, outcome_logs (invoke b m) tr -> Forall (flag_ok b (ctx m)) tr.
Proof.
  intros Hok Ht tr. unfold invoke.
  assert (F0 : Forall (flag_ok b (ctx m)) (trace m)) by (rewrite Ht; constructor).
  destruct (label (ctx m) =? -1); [intros ->; exact F0|].
  destruct (label (ctx m) =? 0).
  { apply run_items_flag; try assumption; [apply incl_refl|reflexivity]. }
  destruct (resume_at (label (ctx m)) b) as [[i r]|] eqn:Hr; [|intros ->; exact F0].
  destruct (resume_at_suffix _ _ _ _ Hr) as [pre E].
  apply run_items_flag; try assumption; try reflexivity.
  - rewrite E; intros x Hx; apply in_or_app; right; right; exact Hx.
  - rewrite E in Hok; exact (item_ok_suffix _ _ _ _ Hok).
Qed.

Lemma invoke_exit_flag (b : list item) (m m' : mem) :
  Forall (item_ok (label_addr m)) b -> invoke b m = Exited m' ->
  co_is_child (ctx m') = false.
Proof.
  intros Hok. unfold invoke.
  destruct (Z.eqb_spec (label (ctx m)) (-1)) as [E1|_].
  { intros E; injection E as <-. unfold co_is_child; rewrite E1; reflexivity. }
  destruct (label (ctx m) =? 0); [apply run_items_exit_flag, Hok|].
  destruct (resume_at (label (ctx m)) b) as [[i r]|] eqn:Hr.
  - destruct (resume_at_suffix _ _ _ _ Hr) as [pre E].
    apply run_items_exit_flag. rewrite E in Hok; exact (item_ok_suffix _ _ _ _ Hok).
  - intros E; injection E as <-; reflexivity.
Qed.

(** ** Further facts about runs *)

(** Ordinary statements run one after the other and each logs the current
    context. *)
Lemma stmts_run (body : stmt) (acts : list action) (rest : list item) (m : mem) :
  steps (co_reenter__ body) (3 * List.length acts)
    (Run (compile (map IStmt acts ++ rest)) (Kregion body) m) =
  Run (compile rest) (Kregion body) (logs acts m).
Proof.
  revert m; induction acts as [|a acts IH]; intros m.
  - simpl. unfold logs, tagged; simpl. rewrite app_nil_r; destruct m; reflexivity.
  - replace (3 * List.length (a :: acts))%nat
      with (3 + 3 * List.length acts)%nat by (simpl; lia).
    rewrite steps_add. simpl steps at 2. simpl map; simpl app.
    change (steps (co_reenter__ body) 3
              (Run (compile (IStmt a :: map IStmt acts ++ rest)) (Kregion body) m))
      with (Run (compile (map IStmt acts ++ rest)) (Kregion body) (log a m)).
    rewrite IH, logs_cons; reflexivity.
Qed.

Lemma invocations_unique (b : list item) (j : nat) (m m1 m2 : mem) :
  invocations b j m m1 -> invocations b j m m2 -> m1 = m2.
Proof.
  intros H1; revert m2; induction H1 as [m|j m ma mb Ha IH Hab]; intros m2 H2.
  - inversion H2; reflexivity.
  - inversion H2 as [|j' m' mc md Hc Hcd]; subst.
    rewrite <- (IH _ Hc) in Hcd.
    eapply reaches_Done_unique; [exact Hab|exact Hcd].
Qed.

Lemma invocations_fixed (b : list item) (m : mem) (j : nat) :
  exits b m m -> invocations b j m m.
Proof.
  intros H; induction j as [|j IH]; [apply invocations_O|].
  eapply invocations_S; [exact IH|exact H].
Qed.

(** Replacing [co_yield continue;] by [co_yield;] does not change what an
    invocation returns. *)
Lemma run_items_swap (n : Z) (pre post : list item) :
  forall m : mem,
  exit_state (run_items (pre ++ IYield n Dcontinue :: post) m) =
  exit_state (run_items (pre ++ IYield n Dnone :: post) m).
Proof.
  induction pre as [|i pre IH]; intros m; [reflexivity|].
  destruct i as [a|n' d|n' a]; simpl.
  - apply IH.
  - reflexivity.
  - destruct (label_addr m =? n'); [apply IH|reflexivity].
Qed.

Lemma resume_swap (n v : Z) (pre post : list item) (m : mem) :
  exit_state
    match resume_at v (pre ++ IYield n Dcontinue :: post) with
    | Some (_, r) => run_items r m
    | None => Exited (set_label m (-1))
    end =
  exit_state
    match resume_at v (pre ++ IYield n Dnone :: post) with
    | Some (_, r) => run_items r m
    | None => Exited (set_label m (-1))
    end.
Proof.
  induction pre as [|i pre IH].
  - simpl. destruct (n =? v); reflexivity.
  - destruct i as [a|n' d|n' a]; simpl.
    + exact IH.
    + destruct (n' =? v); [apply run_items_swap|exact IH].
    + destruct (- n' - 1 =? v); [apply run_items_swap|exact IH].
Qed.

Lemma invoke_swap (n : Z) (pre post : list item) (m : mem) :
  exit_state (invoke (pre ++ IYield n Dcontinue :: post) m) =
  exit_state (invoke (pre ++ IYield n Dnone :: post) m).
Proof.
  unfold invoke.
  destruct (label (ctx m) =? -1); [reflexivity|].
  destruct (label (ctx m) =? 0); [apply run_items_swap|apply resume_swap].
Qed.

Lemma exits_iff_exit_state (b : list item) (m m' : mem) :
  exits b m m' <-> exit_state (invoke b m) = Some m'.
Proof.
  rewrite exits_iff_invoke.
  destruct (invoke b m) as [m1|f a r m1]; simpl; split; intros E;
    try discriminate; injection E as <-; reflexivity.
Qed.

(** An invocation that returns either stored -1 or stopped at a [co_yield]
    that is not [co_yield break]. *)
Lemma run_items_exit_label (r : list item) :
  forall m m' : mem,
  run_items r m = Exited m' ->
  label (ctx m') = -1 \/
  exists p d, In (IYield p d) r /\ d <> Dbreak /\ label (ctx m') = p.
Proof.
  induction r as [|i r IH]; intros m m' E.
  - injection E as <-; left; reflexivity.
  - assert (next : forall m0, run_items r m0 = Exited m' ->
              label (ctx m') = -1 \/
              exists p d, In (IYield p d) (i :: r) /\ d <> Dbreak /\ label (ctx m') = p).
    { intros m0 H; destruct (IH _ _ H) as [L|(p & d & Hin & Hd & L)]; [left; exact L|].
      right; exists p, d; split; [right; exact Hin|split; assumption]. }
    destruct i as [a|n d|n a]; simpl in E.
    + exact (next _ E).
    + injection E as <-.
      destruct d as [|a| |]; try (left; reflexivity);
        right; eexists n, _; (split; [left; reflexivity|split; [discriminate|reflexivity]]).
    + destruct (label_addr m =? n); [exact (next _ E)|discriminate].
Qed.

Lemma invoke_exit_label (b : list item) (m m' : mem) :
  invoke b m = Exited m' ->
  label (ctx m') = -1 \/
  exists p d, In (IYield p d) b /\ d <> Dbreak /\ label (ctx m') = p.
Proof.
  unfold invoke.
  destruct (Z.eqb_spec (label (ctx m)) (-1)) as [E1|_].
  { intros E; injection E as <-; left; exact E1. }
  destruct (label (ctx m) =? 0); [apply run_items_exit_label|].
  destruct (resume_at (label (ctx m)) b) as [[i r]|] eqn:Hr.
  - destruct (resume_at_suffix _ _ _ _ Hr) as [pre E]. intros H.
    destruct (run_items_exit_label _ _ _ H) as [L|(p & d & Hin & Hd & L)];
      [left; exact L|].
    right; exists p, d; split; [|split; assumption].
    rewrite E; apply in_or_app; right; right; exact Hin.
  - intros E; injection E as <-; left; reflexivity.
Qed.

Lemma co_label_positive (c : Z) : 0 <= c -> 0 < co_label__ c.
Proof. unfold co_label__; lia. Qed.

(** For labels of type [int] the values the macros store are of type [int]. *)
Lemma stored_labels_in_range (n : Z) :
  0 < n <= INT_MAX -> INT_MIN <= - n - 1 <= INT_MAX /\ INT_MIN <= -1 <= INT_MAX.
Proof. unfold INT_MIN, INT_MAX; lia. Qed.

(** ** The properties of the specification *)

(** C1.  Invoking a region with label [n > 0] goes straight to the statement
    after the suspend point [n]: after the seven steps of the dispatch the
    machine is about to run the items that follow it, and the state, log
    included, is unchanged, so nothing before that point was run.  For a
    body [s0 co_yield; s1 ... co_yield; sk] with distinct positive labels,
    repeated invocation from a fresh context runs segment after segment:
    after [j] invocations the log holds the first [j] segments, each
    statement once and in body order; the label is not -1 before the
    invocation number [k+1] and is -1 after it, when the log holds the whole
    body.  The state after [j] invocations is the only possible one. *)
Theorem resume_at_exact_point
    (pre post : list item) (n : Z) (d : directive) (m : mem)
    (addr : Z) (s0 : list action) (rest : list (Z * list action)) :
  0 < n -> ~ In n (case_labels pre) -> label (ctx m) = n ->
  NoDup (map fst rest) -> Forall (fun p => 0 < p) (map fst rest) ->
  invoke_steps (pre ++ IYield n d :: post) 7 m =
    Run (compile post) (Kregion (compile (pre ++ IYield n d :: post))) m
  /\ (forall j m', (j <= S (List.length rest))%nat ->
        invocations (straight s0 rest) j (fresh addr) m' <->
        m' = state_after addr s0 rest j)
  /\ (forall j, (j <= List.length rest)%nat ->
        co_is_ready (ctx (state_after addr s0 rest j)) = false)
  /\ co_is_ready (ctx (state_after addr s0 rest (S (List.length rest)))) = true
  /\ trace (state_after addr s0 rest (S (List.length rest))) =
     flat_map chunk_events (chunks s0 rest).
Proof.
  intros Hn Hpre Hm Hnd Hpos.
  split; [|split; [|split; [|split]]].
  - apply dispatch_to_case with (i := IYield n d); try lia.
    rewrite Hm, resume_at_app by exact Hpre.
    simpl; rewrite Z.eqb_refl; reflexivity.
  - intros j m' Hj.
    pose proof (straight_invocations addr s0 rest j Hnd Hpos Hj) as H.
    split; [intros H'; exact (invocations_unique _ _ _ _ _ H' H)|intros ->; exact H].
  - intros j Hj. unfold co_is_ready, co_is_ready__, state_after, chunks; simpl.
    apply Z.eqb_neq.
    destruct j as [|i]; [discriminate|].
    assert (Hin : In (nth i (map fst rest) (-1)) (map fst rest))
      by (apply nth_In; rewrite length_map; lia).
    rewrite Forall_forall in Hpos. specialize (Hpos _ Hin). lia.
  - unfold co_is_ready, co_is_ready__, state_after, chunks; simpl.
    rewrite nth_overflow by (rewrite length_map; lia). reflexivity.
  - unfold state_after, chunks; simpl. rewrite firstn_all; reflexivity.
Qed.

(** An instance: the body [A; co_yield; B] entered with label 1, and the
    three invocations of [A; co_yield; B; co_yield; C]. *)
Lemma resume_at_exact_point_witness :
  invoke_steps ([IStmt "A"] ++ IYield 1 Dnone :: [IStmt "B"]) 7
    {| ctx := {| label := 1 |}; label_addr := 4096; trace := [] |} =
  Run (compile [IStmt "B"])
    (Kregion (compile ([IStmt "A"] ++ IYield 1 Dnone :: [IStmt "B"])))
    {| ctx := {| label := 1 |}; label_addr := 4096; trace := [] |}
  /\ invocations (straight ["A"] [(1, ["B"]); (2, ["C"])]) 3 (fresh 4096)
       {| ctx := {| label := -1 |}; label_addr := 4096;
          trace := [("A", {| label := 0 |}); ("B", {| label := 1 |});
                    ("C", {| label := 2 |})] |}.
Proof.
  assert (H1 : 0 < 1) by lia.
  assert (H2 : ~ In 1 (case_labels [IStmt "A"])) by (simpl; tauto).
  assert (H3 : NoDup (map fst [(1, ["B"]); (2, ["C"])])).
  { simpl. constructor; [simpl; intros [E|[]]; discriminate|].
    constructor; [simpl; tauto|constructor]. }
  assert (H4 : Forall (fun p => 0 < p) (map fst [(1, ["B"]); (2, ["C"])])).
  { simpl. constructor; [lia|]. constructor; [lia|constructor]. }
  destruct (resume_at_exact_point [IStmt "A"] [IStmt "B"] 1 Dnone
              {| ctx := {| label := 1 |}; label_addr := 4096; trace := [] |}
              4096 ["A"] [(1, ["B"]); (2, ["C"])] H1 H2 eq_refl H3 H4)
    as (A & B & _).
  split; [exact A|].
  apply (B 3%nat); [simpl; lia|reflexivity].
Defined.

Lemma spinning_never_returns (b : list item) (m : mem)
    (n : Z) (a : action) (r : list item) (m1 : mem) :
  invoke b m = Spinning n a r m1 ->
  forall j, is_done (invoke_steps b j m) = false.
Proof.
  intros E. pose proof (invoke_sound b m) as S. rewrite E in S.
  destruct S as [S Ha].
  apply (never_done_from _ _ _ S).
  intros j; apply spin_never_done, Ha.
Qed.

(** C2.  The region [A; co_fork E; B;] invoked with a fresh context stored
    at address 4096.  The expression [E] is run with label -2, the label is
    reset to 1, the condition [_co_label_ == 1] compares the pointer and is
    false, and [E] is run again, and again: after 21 steps it has been run
    three times, the invocation never returns and [B] is never run.  Were
    the context stored at address 1, the condition would hold the first
    time: [E] is not run at all, [B] is run with label -2 and the invocation
    returns. *)
Theorem co_fork_reevaluates_forever :
  cfg_trace (invoke_steps fork_example 21 (fresh 4096)) =
    [("A", {| label := 0 |}); ("E", {| label := -2 |});
     ("E", {| label := 1 |}); ("E", {| label := 1 |})]
  /\ (forall j, is_done (invoke_steps fork_example j (fresh 4096)) = false)
  /\ (forall j x, ~ In ("B", x) (cfg_trace (invoke_steps fork_example j (fresh 4096))))
  /\ invoke_steps fork_example 24 (fresh 1) =
       Done {| ctx := {| label := -1 |}; label_addr := 1;
               trace := [("A", {| label := 0 |}); ("B", {| label := -2 |})] |}.
Proof.
  split; [reflexivity|split; [|split; [|reflexivity]]].
  - apply (spinning_never_returns _ _ 1 "E" [IStmt "B"]
             {| ctx := {| label := -2 |}; label_addr := 4096;
                trace := [("A", {| label := 0 |})] |}).
    reflexivity.
  - intros j x Hin.
    assert (F : Forall (fun e : event => fst e <> "B")
                  (cfg_trace (invoke_steps fork_example j (fresh 4096)))).
    { apply invoke_traces. intros tr [i ->].
      induction i as [|i IH]; simpl.
      - constructor; [discriminate|constructor].
      - apply Forall_app; split; [exact IH|].
        constructor; [discriminate|constructor]. }
    rewrite Forall_forall in F. apply (F _ Hin). reflexivity.
Qed.

(** C3, as stated, fails.  The region
    [A; co_fork E; B; co_fork E2; C; co_yield;] is entered with the label -2
    of its first [co_fork], so as a child.  [B] is run, the second
    [co_fork] runs [E2] with label -3 and its increment stores 2: after 16
    steps the invocation has not returned, no [co_yield] has been run, and
    [co_is_child()] is false. *)
Lemma child_flag_cleared_by_next_fork :
  co_is_child {| label := -2 |} = true
  /\ (exists k,
        invoke_steps two_forks 16
          {| ctx := {| label := -2 |}; label_addr := 4096; trace := [] |} =
        Run (Sfor None None (Some (Eassign (Econst 2))) (fork_body 2 (Sact "E2")))
          k
          {| ctx := {| label := 2 |}; label_addr := 4096;
             trace := [("B", {| label := -2 |}); ("E2", {| label := -3 |})] |})
  /\ co_is_child {| label := 2 |} = false.
Proof.
  split; [reflexivity|split; [|reflexivity]].
  eexists; reflexivity.
Qed.

(** C3, amended.  Invoking a region with the label [-n-1] of a [co_fork]
    goes straight to the statement after that [co_fork]: after the seven
    steps of the dispatch the machine is about to run the items that follow
    it and the state is unchanged, so neither the earlier statements nor the
    expression of the [co_fork] were run.  There [co_is_child()] is true,
    and every ordinary statement up to the next suspend point or branch
    point sees the same context, so it is true for each of them.  When a
    [co_yield] comes next, it returns with a label for which
    [co_is_child()] is false.  When a [co_fork q] comes next (and the
    context is not stored at address [q]), its expression is run with label
    [-q-1], for which [co_is_child()] is still true, and the increment then
    stores [q], for which it is false.  When the body ends, the invocation
    returns with label -1. *)
Theorem fork_child_until_next_point
    (pre : list item) (n : Z) (a : action) (acts : list action)
    (rest : list item) (m : mem) :
  0 < n -> ~ In (- n - 1) (case_labels pre) -> label (ctx m) = - n - 1 ->
  co_is_child (ctx m) = true
  /\ invoke_steps (after_fork pre n a acts rest) 7 m =
       Run (compile (map IStmt acts ++ rest))
         (Kregion (compile (after_fork pre n a acts rest))) m
  /\ invoke_steps (after_fork pre n a acts rest) (7 + 3 * List.length acts) m =
       Run (compile rest)
         (Kregion (compile (after_fork pre n a acts rest))) (logs acts m)
  /\ trace (logs acts m) = trace m ++ tagged (ctx m) acts
  /\ (forall p d rest', rest = IYield p d :: rest' -> 0 < p ->
        exits (after_fork pre n a acts rest) m (yield_exit p d (logs acts m))
        /\ co_is_child (ctx (yield_exit p d (logs acts m))) = false)
  /\ (forall q e rest', rest = IFork q e :: rest' -> 0 < q -> label_addr m <> q ->
        invoke_steps (after_fork pre n a acts rest)
          (7 + 3 * List.length acts + 4) m =
          Run (Sact e)
            (Kfork q (Sact e)
               (Kseq (compile rest')
                  (Kregion (compile (after_fork pre n a acts rest)))))
            (set_label (logs acts m) (- q - 1))
        /\ co_is_child (ctx (set_label (logs acts m) (- q - 1))) = true
        /\ invoke_steps (after_fork pre n a acts rest)
             (7 + 3 * List.length acts + 6) m =
           Run (Sfor None None (Some (Eassign (Econst q))) (fork_body q (Sact e)))
             (Kseq (compile rest')
                (Kregion (compile (after_fork pre n a acts rest))))
             (set_label (log e (set_label (logs acts m) (- q - 1))) q)
        /\ co_is_child
             (ctx (set_label (log e (set_label (logs acts m) (- q - 1))) q)) = false)
  /\ (rest = [] ->
      exits (after_fork pre n a acts rest) m (set_label (logs acts m) (-1))).
Proof.
  intros Hn Hpre Hm.
  assert (Hr : resume_at (label (ctx m)) (after_fork pre n a acts rest) =
               Some (IFork n a, map IStmt acts ++ rest)).
  { unfold after_fork. rewrite Hm, resume_at_app by exact Hpre.
    simpl; rewrite Z.eqb_refl; reflexivity. }
  assert (D : invoke_steps (after_fork pre n a acts rest) 7 m =
              Run (compile (map IStmt acts ++ rest))
                (Kregion (compile (after_fork pre n a acts rest))) m).
  { apply dispatch_to_case with (i := IFork n a); try lia; exact Hr. }
  assert (S : invoke_steps (after_fork pre n a acts rest)
                (7 + 3 * List.length acts) m =
              Run (compile rest)
                (Kregion (compile (after_fork pre n a acts rest))) (logs acts m)).
  { unfold invoke_steps in *. rewrite steps_add, D.
    unfold region, co_reenter. apply stmts_run. }
  assert (I : invoke (after_fork pre n a acts rest) m =
              run_items rest (logs acts m)).
  { unfold invoke.
    destruct (Z.eqb_spec (label (ctx m)) (-1)) as [E|_]; [lia|].
    destruct (Z.eqb_spec (label (ctx m)) 0) as [E|_]; [lia|].
    rewrite Hr, run_items_stmts; reflexivity. }
  split; [|split; [exact D|split; [exact S|split; [reflexivity|split; [|split]]]]].
  - unfold co_is_child; rewrite Hm; apply Z.ltb_lt; lia.
  - intros p d rest' -> Hp. split.
    + apply exits_iff_invoke. rewrite I. reflexivity.
    + destruct d; simpl; try (apply positive_not_child; lia); reflexivity.
  - intros q e rest' -> Hq Ha.
    assert (F : invoke_steps (after_fork pre n a acts (IFork q e :: rest'))
                  (7 + 3 * List.length acts + 4) m =
                Run (Sact e)
                  (Kfork q (Sact e)
                     (Kseq (compile rest')
                        (Kregion
                           (compile (after_fork pre n a acts (IFork q e :: rest'))))))
                  (set_label (logs acts m) (- q - 1))).
    { unfold invoke_steps in *. rewrite steps_add, S.
      change 4%nat with (1 + 3)%nat. rewrite steps_add.
      unfold region, co_reenter. simpl steps at 2.
      apply fork_first. exact Ha. }
    split; [exact F|split; [|split]].
    + unfold co_is_child; simpl. apply Z.ltb_lt; lia.
    + unfold invoke_steps in *.
      replace (7 + 3 * List.length acts + 6)%nat
        with (7 + 3 * List.length acts + 4 + 2)%nat by lia.
      rewrite steps_add, F. reflexivity.
    + apply positive_not_child; lia.
  - intros ->. apply exits_iff_invoke. rewrite I. reflexivity.
Qed.

(** An instance: [A; co_fork E; B; co_fork E2; C; co_yield;] entered with
    label -2. *)
Lemma fork_child_until_next_point_witness :
  co_is_child {| label := -2 |} = true
  /\ invoke_steps (after_fork [IStmt "A"] 1 "E" ["B"]
                     [IFork 2 "E2"; IStmt "C"; IYield 3 Dnone]) 7
       {| ctx := {| label := -2 |}; label_addr := 4096; trace := [] |} =
     Run (compile (map IStmt ["B"] ++ [IFork 2 "E2"; IStmt "C"; IYield 3 Dnone]))
       (Kregion
          (compile (after_fork [IStmt "A"] 1 "E" ["B"]
                      [IFork 2 "E2"; IStmt "C"; IYield 3 Dnone])))
       {| ctx := {| label := -2 |}; label_addr := 4096; trace := [] |}.
Proof.
  assert (H1 : 0 < 1) by lia.
  assert (H2 : ~ In (- 1 - 1) (case_labels [IStmt "A"])) by (simpl; tauto).
  destruct (fork_child_until_next_point [IStmt "A"] 1 "E" ["B"]
              [IFork 2 "E2"; IStmt "C"; IYield 3 Dnone]
              {| ctx := {| label := -2 |}; label_addr := 4096; trace := [] |}
              H1 H2 eq_refl)
    as (A & B & _).
  split; [exact A|exact B].
Defined.

(** C4.  With label -1 the machine takes three steps, none of which changes
    the state: no statement of the body is run and the label stays -1.  The
    invocation returns with the state it was given, and so does any number of
    invocations in a row. *)
Theorem terminated_is_idempotent (b : list item) (m : mem) :
  label (ctx m) = -1 ->
  (forall j, cfg_mem (invoke_steps b j m) = m)
  /\ invoke_steps b 3 m = Done m
  /\ (forall j m', invocations b j m m' <-> m' = m).
Proof.
  intros H.
  assert (D : invoke_steps b 3 m = Done m) by (apply entry_finished, H).
  split; [|split; [exact D|]].
  - intros j. destruct j as [|[|[|j]]].
    + reflexivity.
    + reflexivity.
    + unfold invoke_steps, entry, region, co_reenter; simpl. rewrite H; reflexivity.
    + unfold invoke_steps in *.
      change (S (S (S j))) with (3 + j)%nat.
      rewrite steps_add, D, steps_Done; reflexivity.
  - assert (X : exits b m m) by (exists 3%nat; exact D).
    intros j m'; split.
    + intros I; exact (invocations_unique _ _ _ _ _ I (invocations_fixed b m j X)).
    + intros ->; apply invocations_fixed, X.
Qed.

(** An instance: [A; co_yield; B] entered with label -1. *)
Lemma terminated_is_idempotent_witness :
  invoke_steps [IStmt "A"; IYield 1 Dnone; IStmt "B"] 3
    {| ctx := {| label := -1 |}; label_addr := 4096; trace := [] |} =
  Done {| ctx := {| label := -1 |}; label_addr := 4096; trace := [] |}.
Proof.
  apply (terminated_is_idempotent [IStmt "A"; IYield 1 Dnone; IStmt "B"]
           {| ctx := {| label := -1 |}; label_addr := 4096; trace := [] |}
           eq_refl).
Defined.

(** C5.  Control that reaches the end of the body leaves the region with
    label -1, and so does [co_yield break;] wherever it stands; then
    [co_is_ready] is true.  Whenever an invocation returns, either the label
    is -1, or it is the label of a [co_yield] of the body that is not a
    [co_yield break]. *)
Theorem exit_stores_terminated
    (b : list item) (acts : list action) (m : mem)
    (body : stmt) (n : Z) (k : cont) (m0 m' : mem) :
  steps (region b) (3 * List.length acts + 4)
    (Run (compile (map IStmt acts)) (Kregion (compile b)) m) =
    Done (set_label (logs acts m) (-1))
  /\ co_is_ready (ctx (set_label (logs acts m) (-1))) = true
  /\ steps (co_reenter__ body) 12 (Run (co_yield__ n Sbreak) k m) =
       Done (set_label m (-1))
  /\ co_is_ready (ctx (set_label m (-1))) = true
  /\ (exits b m0 m' ->
      co_is_ready (ctx m') = true \/
      exists p d, In (IYield p d) b /\ d <> Dbreak /\ label (ctx m') = p).
Proof.
  split; [|split; [reflexivity|split; [|split; [reflexivity|]]]].
  - rewrite steps_add.
    rewrite <- (app_nil_r (map IStmt acts)).
    unfold region, co_reenter; rewrite stmts_run. apply fall_through.
  - apply (yield_exec body n Dbreak).
  - intros X. apply exits_iff_invoke in X.
    destruct (invoke_exit_label _ _ _ X) as [L|R]; [left|right; exact R].
    unfold co_is_ready, co_is_ready__; rewrite L; reflexivity.
Qed.

(** An instance: [A; co_yield break; B] invoked with a fresh context. *)
Lemma exit_stores_terminated_witness :
  co_is_ready {| label := -1 |} = true \/
  exists p d, In (IYield p d) [IStmt "A"; IYield 1 Dbreak; IStmt "B"]
              /\ d <> Dbreak /\ -1 = p.
Proof.
  apply (exit_stores_terminated [IStmt "A"; IYield 1 Dbreak; IStmt "B"]
           [] (fresh 4096) Sskip 1 Kstop (fresh 4096)
           {| ctx := {| label := -1 |}; label_addr := 4096;
              trace := [("A", {| label := 0 |})] |}).
  exists 30%nat; reflexivity.
Defined.

(** C6.  Whatever the label was, [co_restart] stores 0: the context is then
    equal to one initialised with [CO_CTX_INIT], and an invocation on it
    goes through the same configurations, step after step, as an invocation
    on a context just initialised. *)
Theorem restart_like_fresh
    (c : co_ctx_t) (b : list item) (addr : Z) (tr : list event) (j : nat) :
  label (co_restart c) = 0
  /\ co_restart c = CO_CTX_INIT
  /\ invoke_steps b j {| ctx := co_restart c; label_addr := addr; trace := tr |} =
     invoke_steps b j {| ctx := CO_CTX_INIT; label_addr := addr; trace := tr |}.
Proof. repeat split. Qed.

(** C7, as stated, fails.  The region [co_fork E; co_yield;] is invoked with
    a fresh context, so with label 0 and not as a child; after nine steps
    the machine is about to run [E] and [co_is_child()] is true, and [E] is
    logged with the label -2. *)
Lemma child_flag_during_fork_expression :
  co_is_child (ctx (fresh 4096)) = false
  /\ (exists k m9,
        invoke_steps [IFork 1 "E"; IYield 2 Dnone] 9 (fresh 4096) =
          Run (Sact "E") k m9
        /\ co_is_child (ctx m9) = true)
  /\ cfg_trace (invoke_steps [IFork 1 "E"; IYield 2 Dnone] 10 (fresh 4096)) =
       [("E", {| label := -2 |})]
  /\ co_is_child {| label := -2 |} = true.
Proof.
  split; [reflexivity|split; [|split; reflexivity]].
  eexists _, _; split; reflexivity.
Qed.

(** C7, amended.  In an invocation of a body with positive labels, of a
    context not stored at an address equal to the label of a [co_fork],
    started with an empty log, a statement sees [co_is_child()] true only in two
    cases: the invocation was entered with a label below -1 and the
    statement sees the context as it was on entry, that is, no [co_yield] or
    [co_fork] has stored a label since; or the statement is the expression
    of a [co_fork n], run with the label [-n-1] that the macro has just
    stored.  Every invocation that returns leaves a label for which
    [co_is_child()] is false, and a [co_yield] in each of its forms returns
    with its label or with -1, never with a label below -1. *)
Theorem side_flag_scope
    (b : list item) (m : mem)
    (body : stmt) (n : Z) (d : directive) (k : cont) (m1 : mem) :
  Forall (item_ok (label_addr m)) b -> trace m = [] -> 0 < n ->
  (forall j a x,
     In (a, x) (cfg_trace (invoke_steps b j m)) -> co_is_child x = true ->
     (co_is_child (ctx m) = true /\ x = ctx m) \/
     (exists f, In (IFork f a) b /\ x = {| label := - f - 1 |}))
  /\ (forall m', exits b m m' -> co_is_child (ctx m') = false)
  /\ steps (co_reenter__ body) 12 (Run (co_yield__ n (yield_stmt d)) k m1) =
       Done (yield_exit n d m1)
  /\ -1 <= label (ctx (yield_exit n d m1))
  /\ co_is_child (ctx (yield_exit n d m1)) = false.
Proof.
  intros Hok Ht Hn.
  assert (L : -1 <= label (ctx (yield_exit n d m1))) by (destruct d; simpl; lia).
  split; [|split; [|split; [|split]]].
  - intros j a x Hin Hc.
    pose proof (invoke_traces b m (flag_ok b (ctx m)) (invoke_flag b m Hok Ht) j) as F.
    rewrite Forall_forall in F. exact (F _ Hin Hc).
  - intros m' X. apply exits_iff_invoke in X.
    exact (invoke_exit_flag _ _ _ Hok X).
  - apply yield_exec.
  - exact L.
  - unfold co_is_child; apply Z.ltb_ge; exact L.
Qed.

(** An instance: [co_fork E; B; co_yield;] entered with label -2. *)
Lemma side_flag_scope_witness :
  Forall (item_ok 4096) [IFork 1 "E"; IStmt "B"; IYield 2 Dnone]
  /\ (forall j a x,
        In (a, x)
          (cfg_trace
             (invoke_steps [IFork 1 "E"; IStmt "B"; IYield 2 Dnone] j
                {| ctx := {| label := -2 |}; label_addr := 4096; trace := [] |})) ->
        co_is_child x = true ->
        (co_is_child {| label := -2 |} = true /\ x = {| label := -2 |}) \/
        (exists f, In (IFork f a) [IFork 1 "E"; IStmt "B"; IYield 2 Dnone]
                   /\ x = {| label := - f - 1 |})).
Proof.
  assert (H : Forall (item_ok 4096) [IFork 1 "E"; IStmt "B"; IYield 2 Dnone]).
  { constructor; [simpl; lia|]. constructor; [exact I|].
    constructor; [simpl; lia|constructor]. }
  assert (H2 : 0 < 2) by lia.
  split; [exact H|].
  apply (side_flag_scope [IFork 1 "E"; IStmt "B"; IYield 2 Dnone]
           {| ctx := {| label := -2 |}; label_addr := 4096; trace := [] |}
           Sskip 2 Dnone Kstop (fresh 4096) H eq_refl H2).
Defined.

(** C8.  [co_yield continue;] and [co_yield;] with the same label, run from
    the same state and before the same continuation, both store the label
    and leave the region, running nothing else.  A body with the one and the
    body with the other in its place return in the same cases and with the
    same state, whatever the label and the state the invocation starts
    with. *)
Theorem yield_continue_is_yield
    (body : stmt) (n : Z) (k : cont) (m : mem)
    (pre post : list item) (m0 m' : mem) :
  steps (co_reenter__ body) 12 (Run (co_yield__ n Scontinue) k m) =
    Done (set_label m n)
  /\ steps (co_reenter__ body) 12 (Run (co_yield__ n Sskip) k m) =
       Done (set_label m n)
  /\ (exits (pre ++ IYield n Dcontinue :: post) m0 m' <->
      exits (pre ++ IYield n Dnone :: post) m0 m').
Proof.
  split; [apply (yield_exec body n Dcontinue)|].
  split; [apply (yield_exec body n Dnone)|].
  rewrite !exits_iff_exit_state, invoke_swap; reflexivity.
Qed.

(** C9.  [co_yield a;] stores its label [n] before it runs [a]: after four
    steps the machine is about to run [a] and the label is [n] already, so
    the copy of the context that [a] takes, the one logged, has label [n].
    The region is then left.  An invocation with a context of label [n] goes
    straight to the items after this [co_yield], not to the [co_yield]
    itself. *)
Theorem yield_stores_label_first
    (body : stmt) (n : Z) (a : action) (k : cont) (m : mem)
    (pre post : list item) (m1 : mem) :
  0 < n -> ~ In n (case_labels pre) -> ctx m1 = {| label := n |} ->
  steps (co_reenter__ body) 4 (Run (co_yield__ n (Sact a)) k m) =
    Run (Sact a) (Kyield n (Sact a) k) (set_label m n)
  /\ steps (co_reenter__ body) 12 (Run (co_yield__ n (Sact a)) k m) =
       Done (log a (set_label m n))
  /\ trace (log a (set_label m n)) = trace m ++ [(a, {| label := n |})]
  /\ invoke_steps (pre ++ IYield n (Dexpr a) :: post) 7 m1 =
       Run (compile post)
         (Kregion (compile (pre ++ IYield n (Dexpr a) :: post))) m1.
Proof.
  intros Hn Hpre Hm.
  split; [apply yield_store_first|].
  split; [apply (yield_exec body n (Dexpr a))|].
  split; [reflexivity|].
  assert (L : label (ctx m1) = n) by (rewrite Hm; reflexivity).
  apply dispatch_to_case with (i := IYield n (Dexpr a)); try lia.
  rewrite L, resume_at_app by exact Hpre.
  simpl; rewrite Z.eqb_refl; reflexivity.
Qed.

(** An instance: [co_yield E;] with label 1, and [A; co_yield E; B] entered
    with label 1. *)
Lemma yield_stores_label_first_witness :
  steps (co_reenter__ Sskip) 12
    (Run (co_yield__ 1 (Sact "E")) Kstop (fresh 4096)) =
    Done {| ctx := {| label := 1 |}; label_addr := 4096;
            trace := [("E", {| label := 1 |})] |}
  /\ invoke_steps ([IStmt "A"] ++ IYield 1 (Dexpr "E") :: [IStmt "B"]) 7
       {| ctx := {| label := 1 |}; label_addr := 4096; trace := [] |} =
     Run (compile [IStmt "B"])
       (Kregion (compile ([IStmt "A"] ++ IYield 1 (Dexpr "E") :: [IStmt "B"])))
       {| ctx := {| label := 1 |}; label_addr := 4096; trace := [] |}.
Proof.
  assert (H1 : 0 < 1) by lia.
  assert (H2 : ~ In 1 (case_labels [IStmt "A"])) by (simpl; tauto).
  destruct (yield_stores_label_first Sskip 1 "E" Kstop (fresh 4096)
              [IStmt "A"] [IStmt "B"]
              {| ctx := {| label := 1 |}; label_addr := 4096; trace := [] |}
              H1 H2 eq_refl)
    as (_ & A & _ & B).
  split; [exact A|exact B].
Defined.

(** C10.  Each member function of [Coroutine] does on the object what the
    macro of the C interface does on the context the object holds, and a
    default-constructed [Coroutine] has label 0: it is not ready and not a
    child. *)
Theorem cpp_wrapper_equiv (this : Cpp.Coroutine) :
  Cpp.to_co_ctx (Cpp.restart this) = co_restart (Cpp.to_co_ctx this)
  /\ Cpp.is_ready this = co_is_ready (Cpp.to_co_ctx this)
  /\ Cpp.is_parent this = co_is_parent (Cpp.to_co_ctx this)
  /\ Cpp.is_child this = co_is_child (Cpp.to_co_ctx this)
  /\ label (Cpp.to_co_ctx Cpp.Coroutine_new) = 0
  /\ Cpp.is_ready Cpp.Coroutine_new = false
  /\ Cpp.is_child Cpp.Coroutine_new = false.
Proof. repeat split. Qed.

(** ** Further properties of the macros *)

Lemma steps_Done_le (fn : stmt) (n N : nat) (c : config) (m : mem) :
  steps fn n c = Done m -> (n <= N)%nat -> steps fn N c = Done m.
Proof.
  intros H L. replace N with (n + (N - n))%nat by lia.
  rewrite steps_add, H; apply steps_Done.
Qed.

Lemma steps_Stuck (fn : stmt) (n : nat) (m : mem) :
  steps fn n (Stuck m) = Stuck m.
Proof. induction n as [|n IH]; simpl; [reflexivity|exact IH]. Qed.

(** Ordinary statements before any continuation. *)
Lemma stmts_run_cont (fn : stmt) (acts : list action) (rest : list item)
    (k : cont) (m : mem) :
  steps fn (3 * List.length acts) (Run (compile (map IStmt acts ++ rest)) k m) =
  Run (compile rest) k (logs acts m).
Proof.
  revert m; induction acts as [|a acts IH]; intros m.
  - simpl. unfold logs, tagged; simpl. rewrite app_nil_r; destruct m; reflexivity.
  - replace (3 * List.length (a :: acts))%nat
      with (3 + 3 * List.length acts)%nat by (simpl; lia).
    rewrite steps_add.
    change (steps fn 3 (Run (compile (map IStmt (a :: acts) ++ rest)) k m))
      with (Run (compile (map IStmt acts ++ rest)) k (log a m)).
    rewrite IH, logs_cons; reflexivity.
Qed.

Lemma logs_app (a1 a2 : list action) (m : mem) :
  logs a2 (logs a1 m) = logs (a1 ++ a2) m.
Proof.
  unfold logs, tagged; simpl. rewrite map_app, app_assoc; reflexivity.
Qed.

(** X1.  An invocation whose label is neither -1 nor 0 nor the [case] of an
    item of the body finds no [case] in the [switch]: the body is skipped,
    the increment of the loop stores -1 and the region is left.  Nothing is
    run, and the context is finished. *)
Theorem unmatched_label_terminates (b : list item) (m : mem) :
  label (ctx m) <> -1 -> label (ctx m) <> 0 ->
  ~ In (label (ctx m)) (case_labels b) ->
  invoke_steps b 8 m = Done (set_label m (-1))
  /\ trace (set_label m (-1)) = trace m
  /\ co_is_ready (ctx (set_label m (-1))) = true.
Proof.
  intros H1 H0 Hin.
  split; [|split; reflexivity].
  apply dispatch_nowhere; try assumption.
  apply resume_at_not_in, Hin.
Qed.

(** An instance: [A; co_yield; B] entered with label 7. *)
Lemma unmatched_label_terminates_witness :
  invoke_steps [IStmt "A"; IYield 1 Dnone; IStmt "B"] 8
    {| ctx := {| label := 7 |}; label_addr := 4096; trace := [] |} =
  Done {| ctx := {| label := -1 |}; label_addr := 4096; trace := [] |}.
Proof.
  assert (H1 : 7 <> -1) by lia.
  assert (H0 : 7 <> 0) by lia.
  assert (Hin : ~ In 7 (case_labels [IStmt "A"; IYield 1 Dnone; IStmt "B"])).
  { simpl; intros [E|[]]; lia. }
  apply (unmatched_label_terminates [IStmt "A"; IYield 1 Dnone; IStmt "B"]
           {| ctx := {| label := 7 |}; label_addr := 4096; trace := [] |}
           H1 H0 Hin).
Defined.

Lemma counter_rest_above (segs : list (list action)) :
  forall c p, In p (map fst (counter_rest c segs)) -> c < p.
Proof.
  induction segs as [|seg r IH]; intros c p; simpl; [intros []|].
  intros [E|H]; [unfold co_label__ in E; lia|].
  specialize (IH _ _ H); lia.
Qed.

Lemma counter_rest_NoDup (segs : list (list action)) :
  forall c, NoDup (map fst (counter_rest c segs)).
Proof.
  induction segs as [|seg r IH]; intros c; simpl; constructor; [|apply IH].
  intros H; apply counter_rest_above in H; unfold co_label__ in H; lia.
Qed.

Lemma counter_rest_length (segs : list (list action)) :
  forall c, List.length (counter_rest c segs) = List.length segs.
Proof.
  induction segs as [|seg r IH]; intros c; simpl; [reflexivity|].
  rewrite IH; reflexivity.
Qed.

(** X2.  Labels that [co_label__] takes from successive values of
    [__COUNTER__], starting at a value that is not negative, are positive,
    pairwise distinct, and none equals [-q-1] for another one, [q]: no
    [case] of a [co_yield] meets [case 0], the [case] of a [co_fork] or
    another [co_yield].  A body of ordinary statements and [k] suspend
    points labelled this way is therefore run segment by segment by [k+1]
    invocations from a fresh context, and it is finished after the last one
    and not before. *)
Theorem counter_labels_run
    (c : Z) (addr : Z) (s0 : list action) (segs : list (list action)) :
  0 <= c ->
  NoDup (map fst (counter_rest c segs))
  /\ (forall p q, In p (map fst (counter_rest c segs)) ->
        In q (map fst (counter_rest c segs)) -> 0 < p /\ p <> - q - 1)
  /\ (forall j, (j <= S (List.length segs))%nat ->
        invocations (straight s0 (counter_rest c segs)) j (fresh addr)
          (state_after addr s0 (counter_rest c segs) j)
        /\ (co_is_ready (ctx (state_after addr s0 (counter_rest c segs) j)) = true
            <-> j = S (List.length segs))).
Proof.
  intros Hc.
  assert (Hpos : Forall (fun p => 0 < p) (map fst (counter_rest c segs))).
  { apply Forall_forall; intros p Hp; apply counter_rest_above in Hp; lia. }
  split; [apply counter_rest_NoDup|split].
  - intros p q Hp Hq.
    apply counter_rest_above in Hp; apply counter_rest_above in Hq; lia.
  - intros j Hj. split.
    + apply straight_invocations;
        [apply counter_rest_NoDup|exact Hpos|rewrite counter_rest_length; exact Hj].
    + unfold co_is_ready, co_is_ready__, state_after, chunks; simpl.
      rewrite Z.eqb_eq.
      destruct (Nat.eq_dec j (S (List.length segs))) as [E|E].
      * split; [intros _; exact E|intros _]. subst j.
        apply nth_overflow. simpl. rewrite length_map, counter_rest_length; lia.
      * split; [|intros E'; contradiction]. intros L; exfalso.
        destruct j as [|i]; [discriminate|].
        simpl in L.
        assert (Hin : In (nth i (map fst (counter_rest c segs)) (-1))
                        (map fst (counter_rest c segs))).
        { apply nth_In. rewrite length_map, counter_rest_length; lia. }
        rewrite Forall_forall in Hpos. specialize (Hpos _ Hin). lia.
Qed.

(** An instance: [A; co_yield; B; co_yield; C] with the counter at 0. *)
Lemma counter_labels_run_witness :
  invocations (straight ["A"] (counter_rest 0 [["B"]; ["C"]])) 3 (fresh 4096)
    {| ctx := {| label := -1 |}; label_addr := 4096;
       trace := [("A", {| label := 0 |}); ("B", {| label := 1 |});
                 ("C", {| label := 2 |})] |}.
Proof.
  assert (H : 0 <= 0) by lia.
  destruct (counter_labels_run 0 4096 ["A"] [["B"]; ["C"]] H) as (_ & _ & R).
  destruct (R 3%nat) as [I _]; [simpl; lia|].
  exact I.
Defined.

(** X3.  The loop of [co_fork__], entered from its beginning.  When the
    context is not stored at the address equal to the label [n], the
    statement is run with label [-n-1], then the label is set to [n], the
    condition is false and the statement is run again with label [n], and so
    on without end: the loop is never left and the invocation does not
    return.  When the context is stored at the address [n], the loop is left
    at once with label [-n-1] and the statement is not run. *)
Theorem co_fork_loop (body : stmt) (n : Z) (a : action) (k : cont) (m : mem) :
  (label_addr m <> n ->
   (forall j,
      steps (co_reenter__ body) (3 + 4 * j) (Run (co_fork__ n (Sact a)) k m) =
      Run (Sact a) (Kfork n (Sact a) k) (spin_mem n a (set_label m (- n - 1)) j))
   /\ (forall j,
         trace (spin_mem n a (set_label m (- n - 1)) (S j)) =
         trace m ++ (a, {| label := - n - 1 |}) :: repeat (a, {| label := n |}) j)
   /\ (forall j,
         is_done (steps (co_reenter__ body) j (Run (co_fork__ n (Sact a)) k m)) = false))
  /\ (label_addr m = n ->
      steps (co_reenter__ body) 5 (Run (co_fork__ n (Sact a)) k m) =
      Run Sskip k (set_label m (- n - 1))).
Proof.
  split; [intros Ha|apply fork_addr_eq].
  assert (F : steps (co_reenter__ body) 3 (Run (co_fork__ n (Sact a)) k m) =
              Run (Sact a) (Kfork n (Sact a) k) (set_label m (- n - 1)))
    by (apply fork_first, Ha).
  split; [|split].
  - intros j. rewrite steps_add, F. apply spin_steps; exact Ha.
  - intros j; induction j as [|j IH].
    + reflexivity.
    + change (spin_mem n a (set_label m (- n - 1)) (S (S j)))
        with (set_label (log a (spin_mem n a (set_label m (- n - 1)) (S j))) n).
      cbn [set_label log trace ctx].
      rewrite IH.
      change (ctx (spin_mem n a (set_label m (- n - 1)) (S j)))
        with {| label := n |}.
      rewrite <- app_assoc. simpl.
      rewrite (repeat_cons j (a, {| label := n |})). reflexivity.
  - apply (never_done_from _ _ _ (reaches_steps _ _ _ _ F)).
    intros j; apply spin_never_done; exact Ha.
Qed.

(** An instance: [co_fork E] with label 1 and the context at address 4096;
    after 11 steps [E] was run twice. *)
Lemma co_fork_loop_witness :
  steps (co_reenter__ Sskip) (3 + 4 * 2) (Run (co_fork__ 1 (Sact "E")) Kstop (fresh 4096)) =
  Run (Sact "E") (Kfork 1 (Sact "E") Kstop)
    {| ctx := {| label := 1 |}; label_addr := 4096;
       trace := [("E", {| label := -2 |}); ("E", {| label := 1 |})] |}.
Proof.
  assert (H : label_addr (fresh 4096) <> 1) by (simpl; lia).
  destruct (co_fork_loop Sskip 1 "E" Kstop (fresh 4096)) as [L _].
  destruct (L H) as (S & _ & _).
  exact (S 2%nat).
Defined.

Lemma fork_free_suffix (pre r : list item) (i : item) :
  fork_free (pre ++ i :: r) = true -> fork_free r = true.
Proof.
  unfold fork_free. rewrite forallb_app; simpl.
  intros H. apply andb_prop in H; destruct H as [_ H].
  apply andb_prop in H; apply H.
Qed.

Lemma run_fork_free (body : stmt) (r : list item) :
  forall m : mem,
  fork_free r = true ->
  exists m',
    steps (co_reenter__ body) (3 * List.length r + 13)
      (Run (compile r) (Kregion body) m) = Done m'.
Proof.
  induction r as [|i r IH]; intros m Hf.
  - exists (set_label m (-1)).
    apply (steps_Done_le _ 4); [apply fall_through|simpl; lia].
  - destruct i as [a|n d|n a]; [| |discriminate].
    + destruct (IH (log a m) Hf) as [m' H]. exists m'.
      replace (3 * List.length (IStmt a :: r) + 13)%nat
        with (3 + (3 * List.length r + 13))%nat by (simpl; lia).
      rewrite steps_add. exact H.
    + exists (yield_exit n d m).
      apply (steps_Done_le _ (1 + 12)); [|simpl; lia].
      rewrite steps_add. simpl steps at 2. apply yield_exec.
Qed.

(** X4.  An invocation of a body without [co_fork] always returns, whatever
    the label it is entered with: the loops that [co_reenter__] and
    [co_yield__] open are left after one pass.  The machine is done within
    [3 * n + 20] steps for a body of [n] items. *)
Theorem fork_free_returns (b : list item) (m : mem) :
  fork_free b = true ->
  exists m', invoke_steps b (3 * List.length b + 20) m = Done m'.
Proof.
  intros Hf. unfold invoke_steps.
  destruct (Z.eq_dec (label (ctx m)) (-1)) as [E1|E1].
  { exists m. apply (steps_Done_le _ 3); [apply entry_finished, E1|lia]. }
  destruct (Z.eq_dec (label (ctx m)) 0) as [E0|E0].
  { destruct (run_fork_free (compile b) b m Hf) as [m' H]. exists m'.
    apply (steps_Done_le _ (5 + (3 * List.length b + 13))); [|lia].
    rewrite steps_add, (dispatch_to_start b m E0). exact H. }
  destruct (resume_at (label (ctx m)) b) as [[i r]|] eqn:Hr.
  - destruct (resume_at_suffix _ _ _ _ Hr) as [pre E].
    assert (Hfr : fork_free r = true) by (rewrite E in Hf; exact (fork_free_suffix _ _ _ Hf)).
    destruct (run_fork_free (compile b) r m Hfr) as [m' H]. exists m'.
    apply (steps_Done_le _ (7 + (3 * List.length r + 13))).
    + rewrite steps_add, (dispatch_to_case b m i r E1 E0 Hr). exact H.
    + rewrite E, length_app; simpl; lia.
  - exists (set_label m (-1)).
    apply (steps_Done_le _ 8); [apply dispatch_nowhere; assumption|lia].
Qed.

(** An instance: [A; co_yield; B] invoked with a fresh context. *)
Lemma fork_free_returns_witness :
  exists m',
    invoke_steps [IStmt "A"; IYield 1 Dnone; IStmt "B"] (3 * 3 + 20) (fresh 4096) =
    Done m'.
Proof.
  apply (fork_free_returns [IStmt "A"; IYield 1 Dnone; IStmt "B"] (fresh 4096)).
  reflexivity.
Defined.

(** X5.  The machine never gets stuck on a region: every [goto] of a
    [co_yield] finds its label in the enclosing [co_reenter], and every
    [break] and [continue] of the expansions has a loop or a [switch] to act
    on, whatever the body, the label and the address of the context. *)
Theorem region_never_stuck (b : list item) (m : mem) (j : nat) :
  is_stuck (invoke_steps b j m) = false.
Proof.
  destruct (invoke_steps b j m) as [s k m1|m1|m1] eqn:E; try reflexivity.
  exfalso. unfold invoke_steps in E.
  pose proof (invoke_sound b m) as S.
  destruct (invoke b m) as [m'|n a r m'].
  - destruct S as [n0 S].
    assert (X : steps (region b) (j + n0) (entry b m) =
                steps (region b) (n0 + j) (entry b m)) by (f_equal; lia).
    rewrite !steps_add, E, S, steps_Stuck, steps_Done in X. discriminate.
  - destruct S as [[n0 S] Ha].
    assert (X : steps (region b) (j + (n0 + 3 * j)) (entry b m) =
                steps (region b) (n0 + 4 * j) (entry b m)) by (f_equal; lia).
    rewrite !steps_add, E, S, !steps_Stuck in X.
    unfold region, co_reenter in X.
    rewrite (spin_steps _ _ _ _ _ _ Ha) in X. discriminate.
Qed.

(** X6.  What one invocation does depends only on the segment it resumes
    in.  Entered with the label [n] of a suspend point, a body returns with
    exactly one state: the ordinary statements between that point and the
    next suspend point have been logged, each once and in order, and the
    next [co_yield] has had its effect; or, when no suspend point follows,
    the statements up to the end have been logged and the label is -1.  The
    items before the point, its own directive and the items after the next
    suspend point play no part. *)
Theorem segment_between_suspends
    (pre : list item) (n : Z) (d : directive) (acts : list action)
    (p : Z) (d' : directive) (post : list item) (m m' : mem) :
  0 < n -> ~ In n (case_labels pre) -> label (ctx m) = n ->
  (exits (pre ++ IYield n d :: map IStmt acts ++ IYield p d' :: post) m m' <->
   m' = yield_exit p d' (logs acts m))
  /\ (exits (pre ++ IYield n d :: map IStmt acts) m m' <->
      m' = set_label (logs acts m) (-1)).
Proof.
  intros Hn Hpre Hm.
  assert (R : forall r, invoke (pre ++ IYield n d :: r) m = run_items r m).
  { intros r. unfold invoke. rewrite Hm.
    destruct (Z.eqb_spec n (-1)) as [E|_]; [lia|].
    destruct (Z.eqb_spec n 0) as [E|_]; [lia|].
    rewrite resume_at_app by exact Hpre.
    simpl. rewrite Z.eqb_refl. reflexivity. }
  split; rewrite exits_iff_invoke, R.
  - rewrite run_items_stmts. simpl.
    split; [intros E; injection E as <-; reflexivity|intros ->; reflexivity].
  - rewrite <- (app_nil_r (map IStmt acts)), run_items_stmts. simpl.
    split; [intros E; injection E as <-; reflexivity|intros ->; reflexivity].
Qed.

(** An instance: [A; co_yield; B; co_yield E; C] entered with label 1. *)
Lemma segment_between_suspends_witness :
  exits ([IStmt "A"] ++ IYield 1 Dnone :: map IStmt ["B"] ++ IYield 2 (Dexpr "E") :: [IStmt "C"])
    {| ctx := {| label := 1 |}; label_addr := 4096; trace := [] |}
    {| ctx := {| label := 2 |}; label_addr := 4096;
       trace := [("B", {| label := 1 |}); ("E", {| label := 2 |})] |}.
Proof.
  assert (H1 : 0 < 1) by lia.
  assert (H2 : ~ In 1 (case_labels [IStmt "A"])) by (simpl; tauto).
  destruct (segment_between_suspends [IStmt "A"] 1 Dnone ["B"] 2 (Dexpr "E")
              [IStmt "C"]
              {| ctx := {| label := 1 |}; label_addr := 4096; trace := [] |}
              {| ctx := {| label := 2 |}; label_addr := 4096;
                 trace := [("B", {| label := 1 |}); ("E", {| label := 2 |})] |}
              H1 H2 eq_refl) as [[_ A] _].
  apply A. reflexivity.
Defined.

Lemma straight_chain_from (m0 : mem) (s0 : list action) (r1 : list (Z * list action)) :
  forall r2 : list (Z * list action),
  NoDup (map fst (r1 ++ r2)) ->
  Forall (fun p => 0 < p) (map fst (r1 ++ r2)) ->
  label (ctx m0) = 0 ->
  invocations (straight s0 (r1 ++ r2)) (S (List.length r1)) m0
    {| ctx := {| label := hd (-1) (map fst r2) |};
       label_addr := label_addr m0;
       trace := trace m0 ++ flat_map chunk_events ((0, s0) :: r1) |}.
Proof.
  induction r1 as [|[p seg] r1 IH] using rev_ind; intros r2 Hnd Hpos H0.
  - simpl. eapply invocations_S; [apply invocations_O|].
    apply exits_iff_invoke.
    rewrite invoke_straight_first by exact H0.
    destruct m0 as [[l] addr tr]; simpl in H0; subst l.
    unfold set_label, logs, chunk_events; simpl. rewrite app_nil_r; reflexivity.
  - rewrite <- app_assoc in Hnd, Hpos |- *. simpl app in Hnd, Hpos |- *.
    rewrite length_app, Nat.add_1_r.
    eapply invocations_S; [apply (IH _ Hnd Hpos H0)|].
    apply exits_iff_invoke.
    rewrite invoke_straight_next.
    + unfold set_label, logs; simpl.
      rewrite flat_map_app; simpl. rewrite app_nil_r, !app_assoc; reflexivity.
    + rewrite map_app, Forall_app in Hpos. destruct Hpos as [_ Hpos].
      inversion Hpos; assumption.
    + rewrite map_app in Hnd. apply NoDup_remove_2 in Hnd.
      intros Hin; apply Hnd, in_or_app; left; exact Hin.
    + reflexivity.
Qed.

(** X7.  [co_restart] makes a body run again from its first statement,
    whatever the label of the context was (finished, suspended at any point,
    or a child): after it, [k+1] invocations of a body of ordinary
    statements and [k] suspend points with distinct positive labels run the
    whole body, each statement once and in order, in addition to what was
    logged before, and leave the label -1. *)
Theorem restart_replays_body
    (m : mem) (s0 : list action) (rest : list (Z * list action)) :
  NoDup (map fst rest) -> Forall (fun p => 0 < p) (map fst rest) ->
  invocations (straight s0 rest) (S (List.length rest)) (restart_mem m)
    {| ctx := {| label := -1 |};
       label_addr := label_addr m;
       trace := trace m ++ flat_map chunk_events (chunks s0 rest) |}.
Proof.
  intros Hnd Hpos.
  pose proof (straight_chain_from (restart_mem m) s0 rest []) as H.
  rewrite app_nil_r in H.
  exact (H Hnd Hpos eq_refl).
Qed.

(** An instance: [A; co_yield; B] restarted after it has finished. *)
Lemma restart_replays_body_witness :
  invocations (straight ["A"] [(1, ["B"])]) 2
    (restart_mem
       {| ctx := {| label := -1 |}; label_addr := 4096;
          trace := [("A", {| label := 0 |}); ("B", {| label := 1 |})] |})
    {| ctx := {| label := -1 |}; label_addr := 4096;
       trace := [("A", {| label := 0 |}); ("B", {| label := 1 |});
                 ("A", {| label := 0 |}); ("B", {| label := 1 |})] |}.
Proof.
  assert (H1 : NoDup (map fst [(1, ["B"])]))
    by (simpl; constructor; [simpl; tauto|constructor]).
  assert (H2 : Forall (fun p => 0 < p) (map fst [(1, ["B"])]))
    by (simpl; constructor; [lia|constructor]).
  exact (restart_replays_body
           {| ctx := {| label := -1 |}; label_addr := 4096;
              trace := [("A", {| label := 0 |}); ("B", {| label := 1 |})] |}
           ["A"] [(1, ["B"])] H1 H2).
Defined.

Lemma generator_pass (acts : list action) (n : Z) (m : mem) :
  reaches (co_reenter__ (generator acts n))
    (Run (generator acts n) (Kregion (generator acts n)) m)
    (Done (set_label (logs acts m) n)).
Proof.
  exists (1 + (3 * List.length acts + (1 + 12)))%nat.
  rewrite steps_add. simpl steps at 2.
  rewrite steps_add, stmts_run_cont.
  rewrite steps_add. simpl steps at 2.
  apply (yield_exec _ n Dnone).
Qed.

(** X8.  A [co_yield] in a loop of the body: [for (;;) { acts co_yield; }].
    The first invocation runs [acts] and suspends.  Every later one jumps to
    the [case] inside the loop, goes round the loop, runs [acts] once and
    suspends again with the same label: the context never becomes ready. *)
Theorem yield_in_loop (acts : list action) (n : Z) (m : mem) :
  0 < n -> label (ctx m) = 0 \/ label (ctx m) = n ->
  reaches (co_reenter (generator acts n)) (entry_stmt (generator acts n) m)
    (Done (set_label (logs acts m) n))
  /\ label (ctx (set_label (logs acts m) n)) = n
  /\ co_is_ready (ctx (set_label (logs acts m) n)) = false.
Proof.
  intros Hn Hl.
  split; [|split; [reflexivity|]].
  - unfold co_reenter, entry_stmt.
    eapply reaches_trans; [|apply generator_pass].
    destruct Hl as [E|E].
    + exists 5%nat. rewrite entry_switch by lia.
      cbn [find_case]. rewrite E. reflexivity.
    + exists (5 + (2 + 1))%nat. rewrite steps_add, entry_switch by lia.
      cbn [find_case]. rewrite E.
      destruct (Z.eqb_spec 0 n) as [E0|_]; [lia|].
      assert (F : find_case n (generator acts n) (Kregion (generator acts n)) =
                  Some (Sbreak,
                        loop_cont (IYield n Dnone)
                          (Kseq (compile [])
                             (Kfor None None
                                (compile (map IStmt acts ++ [IYield n Dnone]))
                                (Kregion (generator acts n)))))).
      { unfold generator at 1. cbn [find_case].
        rewrite find_case_compile, resume_at_app
          by (rewrite case_labels_stmts; intros []).
        simpl resume_at. rewrite Z.eqb_refl. reflexivity. }
      rewrite F, steps_add, land_after by reflexivity.
      reflexivity.
  - unfold co_is_ready, co_is_ready__; simpl. apply Z.eqb_neq; lia.
Qed.

(** An instance: [for (;;) { A; co_yield; }] resumed with label 1. *)
Lemma yield_in_loop_witness :
  reaches (co_reenter (generator ["A"] 1))
    (entry_stmt (generator ["A"] 1)
       {| ctx := {| label := 1 |}; label_addr := 4096; trace := [] |})
    (Done {| ctx := {| label := 1 |}; label_addr := 4096;
             trace := [("A", {| label := 1 |})] |}).
Proof.
  assert (H : 0 < 1) by lia.
  destruct (yield_in_loop ["A"] 1
              {| ctx := {| label := 1 |}; label_addr := 4096; trace := [] |}
              H (or_intror eq_refl)) as [R _].
  exact R.
Defined.

Lemma switch_body_first (fn : stmt) (pre acts : list action) (n : Z)
    (inner post : list item) (k : cont) (m : mem) :
  steps fn (1 + (3 * List.length pre + (3 + (3 * List.length acts + 1))))
    (Run (switch_body pre acts n inner post) k m) =
  Run (co_yield n Sskip)
    (Kseq (compile inner) (Kswitch (Kseq (compile post) k)))
    (logs (pre ++ acts) m).
Proof.
  unfold switch_body.
  rewrite <- (app_nil_r (map IStmt pre)).
  rewrite steps_add.
  change (steps fn 1 (Run (Sseq (compile (map IStmt pre ++ [])) ?s) k m))
    with (Run (compile (map IStmt pre ++ [])) (Kseq s k) m).
  rewrite steps_add, stmts_run_cont.
  rewrite steps_add.
  match goal with
  | |- steps fn _ (steps fn 3 (Run (compile []) (Kseq ?s k) ?m1)) = _ =>
      change (steps fn 3 (Run (compile []) (Kseq s k) m1))
        with (Run (compile (map IStmt acts ++ IYield n Dnone :: inner))
                (Kswitch (Kseq (compile post) k)) m1)
  end.
  rewrite steps_add, stmts_run_cont, logs_app.
  reflexivity.
Qed.

(** X9.  A [co_yield] in a nested [switch]:
    [pre switch (0) { case 0: acts co_yield; inner } post].  The first
    invocation runs [pre] and [acts] and suspends with the label [n] of the
    [co_yield].  The [case n] belongs to the nested [switch], so the next
    invocation finds no [case] in the [switch] of [co_reenter__]: it runs
    nothing, neither [inner] nor [post], and leaves the label -1. *)
Theorem yield_in_nested_switch
    (pre acts : list action) (n : Z) (inner post : list item) (m0 m1 : mem) :
  0 < n -> ~ In n (case_labels post) ->
  label (ctx m0) = 0 -> label (ctx m1) = n ->
  reaches (co_reenter (switch_body pre acts n inner post))
    (entry_stmt (switch_body pre acts n inner post) m0)
    (Done (set_label (logs (pre ++ acts) m0) n))
  /\ steps (co_reenter (switch_body pre acts n inner post)) 8
       (entry_stmt (switch_body pre acts n inner post) m1) =
     Done (set_label m1 (-1)).
Proof.
  intros Hn Hpost H0 H1. unfold co_reenter, entry_stmt. split.
  - exists (5 + ((1 + (3 * List.length pre + (3 + (3 * List.length acts + 1)))) + 12))%nat.
    rewrite steps_add, entry_switch by lia.
    cbn [find_case]. rewrite H0. simpl Z.eqb. cbv iota.
    rewrite steps_add, switch_body_first.
    apply (yield_exec _ n Dnone).
  - change 8%nat with (5 + 3)%nat.
    rewrite steps_add, entry_switch by lia.
    cbn [find_case]. rewrite H1.
    destruct (Z.eqb_spec 0 n) as [E0|_]; [lia|].
    assert (F : find_case n (switch_body pre acts n inner post)
                  (Kregion (switch_body pre acts n inner post)) = None).
    { unfold switch_body at 1. cbn [find_case].
      rewrite !find_case_compile,
        (resume_at_not_in n (map IStmt pre)), (resume_at_not_in n post);
        [reflexivity|exact Hpost|rewrite case_labels_stmts; intros []]. }
    rewrite F. apply no_case_exit.
Qed.

(** An instance: [A; switch (0) { case 0: B; co_yield; C; } D]. *)
Lemma yield_in_nested_switch_witness :
  steps (co_reenter (switch_body ["A"] ["B"] 1 [IStmt "C"] [IStmt "D"])) 8
    (entry_stmt (switch_body ["A"] ["B"] 1 [IStmt "C"] [IStmt "D"])
       {| ctx := {| label := 1 |}; label_addr := 4096;
          trace := [("A", {| label := 0 |}); ("B", {| label := 0 |})] |}) =
  Done {| ctx := {| label := -1 |}; label_addr := 4096;
          trace := [("A", {| label := 0 |}); ("B", {| label := 0 |})] |}.
Proof.
  assert (H : 0 < 1) by lia.
  assert (Hp : ~ In 1 (case_labels [IStmt "D"])) by (simpl; tauto).
  destruct (yield_in_nested_switch ["A"] ["B"] 1 [IStmt "C"] [IStmt "D"]
              (fresh 4096)
              {| ctx := {| label := 1 |}; label_addr := 4096;
                 trace := [("A", {| label := 0 |}); ("B", {| label := 0 |})] |}
              H Hp eq_refl eq_refl) as [_ R].
  exact R.
Defined.

(** X10.  The states of a [Coroutine] as its member functions tell them
    apart: a coroutine that is ready is a parent, a child is not ready, and
    [restart()] gives, from any state, the state of a default-constructed
    object, which is neither ready nor a child; restarting twice is
    restarting once. *)
Theorem coroutine_states (this : Cpp.Coroutine) :
  Cpp.restart this = Cpp.Coroutine_new
  /\ Cpp.is_ready (Cpp.restart this) = false
  /\ Cpp.is_parent (Cpp.restart this) = true
  /\ Cpp.restart (Cpp.restart this) = Cpp.restart this
  /\ (Cpp.is_ready this = true -> Cpp.is_parent this = true)
  /\ (Cpp.is_child this = true -> Cpp.is_ready this = false).
Proof.
  destruct this as [[l]].
  unfold Cpp.is_ready, Cpp.is_parent, Cpp.is_child; simpl.
  repeat split.
  - intros H. apply Z.eqb_eq in H. subst l. reflexivity.
  - intros H. apply Z.ltb_lt in H. apply Z.eqb_neq. lia.
Qed.
